(** * http_smuggle.py: a differential probe for HTTP header parsing

    A shallow embedding of [src/http_smuggle.py] and the properties of it
    that its specification states.

    Python values are modelled as follows.
    - [str] is a sequence of Unicode code points ([list N]); [bytes] is a
      sequence of octets ([list byte]).
    - A [float] is a binary64 value ([PrimFloat.float]); the [.2f] format is
      computed exactly from the value's mantissa and exponent.
    - A [dict] with fixed literal keys is a record; the [headers] dict, keyed
      by text of the response, is a finite map ([gmap str str]).
    - Raised exceptions are values of [exn]; a computation that prints and
      may raise returns the lines printed so far and either the exception or
      its result (type [M]).
    - The network and the clock are an oracle: for every iteration of the
      probe loop it says which socket call failed, or which bytes [recv]
      returned and what [time.time()] read around the exchange. *)

From Stdlib Require Import ZArith NArith List Lia Floats DecimalPos.
From Stdlib.Strings Require Import String Ascii Byte.
From stdpp Require Import base option list gmap.
Import ListNotations.

Set Warnings "-inexact-float".
Local Open Scope N_scope.

(** ** Python [str] and [bytes] *)

Abbreviation codepoint := N.
Abbreviation str := (list codepoint).
Abbreviation bytes := (list byte).

(** A literal of the source, character by character. *)
Definition lit (s : string) : str :=
  map N_of_ascii (list_ascii_of_string s).
Arguments lit s%_string.

Definition CR : codepoint := 13.
Definition LF : codepoint := 10.
(** ['\r\n'] *)
Definition CRLF : str := [CR; LF].
(** [': '] *)
Definition COLON_SP : str := [58; 32].

(** [s.startswith(p)] *)
Fixpoint startswith (p s : str) : bool :=
  match p, s with
  | [], _ => true
  | _ :: _, [] => false
  | a :: p', b :: s' => bool_decide (a = b) && startswith p' s'
  end.

(** The leftmost occurrence of [sep] in [s]: the text before it and the text
    after it ([s.partition(sep)] without the separator), [None] when [sep]
    does not occur. *)
Fixpoint cut (sep s : str) : option (str * str) :=
  if startswith sep s then Some ([], drop (length sep) s)
  else match s with
       | [] => None
       | c :: s' =>
           match cut sep s' with
           | Some (a, b) => Some (c :: a, b)
           | None => None
           end
       end.

(** [sep in s] *)
Fixpoint contains (sep s : str) : bool :=
  startswith sep s ||
  match s with
  | [] => false
  | _ :: s' => contains sep s'
  end.

(** [s.split(sep, n)] for a non-empty [sep]: at most [n] splits, made at the
    leftmost occurrences, scanning from the left. *)
Fixpoint split_n (n : nat) (sep s : str) : list str :=
  match n with
  | O => [s]
  | S n' =>
      match cut sep s with
      | None => [s]
      | Some (a, b) => a :: split_n n' sep b
      end
  end.

(** [s.split(sep)]: no bound on the number of splits.  Every split removes
    at least one character, so [length s] splits are never exceeded. *)
Definition split (sep s : str) : list str := split_n (length s) sep s.

(** Lower-casing of an ASCII code point. *)
Definition ascii_lower (c : codepoint) : codepoint :=
  if (65 <=? c) && (c <=? 90) then c + 32 else c.

(** Lower-casing of a code point outside ASCII is fixed by the Unicode
    database of the interpreter, which is not part of the program; it is a
    parameter of the model.  It may depend on the text before and after the
    code point (the final-sigma rule) and may yield several code points. *)
Class UnicodeData := {
  lower_nonascii : str -> codepoint -> str -> str
}.

Section Lower.
Context `{UnicodeData}.

Fixpoint lower_from (pre s : str) : str :=
  match s with
  | [] => []
  | c :: rest =>
      (if c <? 128 then [ascii_lower c] else lower_nonascii pre c rest)
        ++ lower_from (pre ++ [c]) rest
  end.

(** [s.lower()] *)
Definition lower (s : str) : str := lower_from [] s.
End Lower.


(** ** Numbers as text *)

Fixpoint uint_digits (d : Decimal.uint) : str :=
  match d with
  | Decimal.Nil => []
  | Decimal.D0 d => 48 :: uint_digits d
  | Decimal.D1 d => 49 :: uint_digits d
  | Decimal.D2 d => 50 :: uint_digits d
  | Decimal.D3 d => 51 :: uint_digits d
  | Decimal.D4 d => 52 :: uint_digits d
  | Decimal.D5 d => 53 :: uint_digits d
  | Decimal.D6 d => 54 :: uint_digits d
  | Decimal.D7 d => 55 :: uint_digits d
  | Decimal.D8 d => 56 :: uint_digits d
  | Decimal.D9 d => 57 :: uint_digits d
  end.

(** [str(n)] for a natural number. *)
Definition str_of_N (n : N) : str := uint_digits (N.to_uint n).

(** One lower-case hexadecimal digit. *)
Definition hex_digit (n : N) : codepoint :=
  if n <? 10 then 48 + n else 87 + n.

(** [x] rounded to the nearest integer, ties to even, for the rational
    [x = num / den]. *)
Definition round_half_even (num den : N) : N :=
  let q := num / den in
  let r := num mod den in
  match 2 * r ?= den with
  | Lt => q
  | Gt => q + 1
  | Eq => if N.even q then q else q + 1
  end.

(** Hundredths as fixed-point text: [1234] is ["12.34"]. *)
Definition fixed2 (h : N) : str :=
  str_of_N (h / 100) ++ [46; 48 + (h mod 100) / 10; 48 + (h mod 100) mod 10].

Definition sign_text (neg : bool) : str := if neg then [45] else [].

(** [f"{x:.2f}"]: the decimal expansion of the binary64 value [x], correctly
    rounded (ties to even) to two places. *)
Definition format_2f (x : float) : str :=
  match Prim2SF x with
  | S754_nan => lit "nan"
  | S754_infinity neg => sign_text neg ++ lit "inf"
  | S754_zero neg => sign_text neg ++ lit "0.00"
  | S754_finite neg m e =>
      sign_text neg ++
      fixed2 (match e with
              | Z0 => Npos m * 100
              | Zpos p => Npos m * 2 ^ Npos p * 100
              | Zneg p => round_half_even (Npos m * 100) (2 ^ Npos p)
              end)
  end.

(** ** Exceptions *)

Inductive exn_class :=
| OSError               (* socket errors: refused, timed out, reset, DNS *)
| UnicodeEncodeError
| UnicodeDecodeError
| ValueError
| StopIteration
| UnboundLocalError.

(** A raised exception: its class and [str(e)]. *)
Record exn := Exn { exn_class_of : exn_class; exn_str : str }.

(** ** UTF-8 *)

Definition is_surrogate (c : codepoint) : bool :=
  (55296 <=? c) && (c <=? 57343).

Definition byte_of_N (n : N) : byte :=
  match Byte.of_N n with
  | Some b => b
  | None => "000"%byte
  end.

(** The well-formed UTF-8 encoding of one code point that is no surrogate
    and below [0x110000]. *)
Definition utf8_char (c : codepoint) : bytes :=
  if c <? 128 then [byte_of_N c]
  else if c <? 2048 then
    [byte_of_N (192 + c / 64); byte_of_N (128 + c mod 64)]
  else if c <? 65536 then
    [byte_of_N (224 + c / 4096); byte_of_N (128 + (c / 64) mod 64);
     byte_of_N (128 + c mod 64)]
  else
    [byte_of_N (240 + c / 262144); byte_of_N (128 + (c / 4096) mod 64);
     byte_of_N (128 + (c / 64) mod 64); byte_of_N (128 + c mod 64)].

(** The message of the [UnicodeEncodeError] for the surrogates at positions
    [start .. start + run] of the text, [c] being the first of them. *)
Definition surrogate_message (c : codepoint) (start run : nat) : str :=
  match run with
  | O =>
      lit "'utf-8' codec can't encode character '\u"
        ++ [hex_digit (c / 4096); hex_digit ((c / 256) mod 16);
            hex_digit ((c / 16) mod 16); hex_digit (c mod 16)]
        ++ lit "' in position " ++ str_of_N (N.of_nat start)
        ++ lit ": surrogates not allowed"
  | S _ =>
      lit "'utf-8' codec can't encode characters in position "
        ++ str_of_N (N.of_nat start) ++ lit "-"
        ++ str_of_N (N.of_nat (start + run))
        ++ lit ": surrogates not allowed"
  end.

(** The number of surrogates at the head of [s]. *)
Fixpoint surrogate_run (s : str) : nat :=
  match s with
  | c :: s' => if is_surrogate c then S (surrogate_run s') else O
  | [] => O
  end.

(** [s.encode()]: UTF-8, strict.  A surrogate cannot be encoded.  (A Python
    [str] holds no code point above [0x10FFFF]; the model rejects one.) *)
Fixpoint encode_from (pos : nat) (s : str) : exn + bytes :=
  match s with
  | [] => inr []
  | c :: s' =>
      if is_surrogate c then
        inl (Exn UnicodeEncodeError (surrogate_message c pos (surrogate_run s')))
      else if 1114112 <=? c then
        inl (Exn UnicodeEncodeError (lit "character out of range"))
      else
        match encode_from (S pos) s' with
        | inl e => inl e
        | inr bs => inr (utf8_char c ++ bs)
        end
  end.

Definition encode (s : str) : exn + bytes := encode_from 0 s.

(** The [errors] argument of [bytes.decode]. *)
Inductive error_handler := Strict | Ignore | Replace.

(** U+FFFD *)
Definition REPLACEMENT : codepoint := 65533.

Definition is_continuation (b : N) : bool := (128 <=? b) && (b <? 192).

(** What the decoder finds in the input, from left to right: a well-formed
    sequence, with the code point it encodes, or an undecodable range. *)
Inductive piece :=
| Decoded (c : codepoint)
| Undecodable.

#[global] Instance piece_eq_dec : EqDecision piece.
Proof. solve_decision. Defined.

(** The decoding loop of the UTF-8 codec.  An undecodable range is the
    longest prefix of a well-formed sequence, or one byte that starts none;
    the bytes up to the end of the input are one range when the input ends
    inside a sequence. *)
Fixpoint utf8_pieces (bs : bytes) : list piece :=
  match bs with
  | [] => []
  | b1 :: r1 =>
      let c1 := Byte.to_N b1 in
      if c1 <? 128 then Decoded c1 :: utf8_pieces r1
      else if c1 <? 194 then Undecodable :: utf8_pieces r1
      else if c1 <? 224 then
        match r1 with
        | [] => [Undecodable]
        | b2 :: r2 =>
            let c2 := Byte.to_N b2 in
            if is_continuation c2
            then Decoded ((c1 - 192) * 64 + (c2 - 128)) :: utf8_pieces r2
            else Undecodable :: utf8_pieces r1
        end
      else if c1 <? 240 then
        match r1 with
        | [] => [Undecodable]
        | b2 :: r2 =>
            let c2 := Byte.to_N b2 in
            if negb (is_continuation c2)
               || (if c2 <? 160 then c1 =? 224 else c1 =? 237)
            then Undecodable :: utf8_pieces r1
            else
              match r2 with
              | [] => [Undecodable]
              | b3 :: r3 =>
                  let c3 := Byte.to_N b3 in
                  if is_continuation c3
                  then Decoded ((c1 - 224) * 4096 + (c2 - 128) * 64 + (c3 - 128))
                         :: utf8_pieces r3
                  else Undecodable :: utf8_pieces r2
              end
        end
      else if c1 <? 245 then
        match r1 with
        | [] => [Undecodable]
        | b2 :: r2 =>
            let c2 := Byte.to_N b2 in
            if negb (is_continuation c2)
               || (if c2 <? 144 then c1 =? 240 else c1 =? 244)
            then Undecodable :: utf8_pieces r1
            else
              match r2 with
              | [] => [Undecodable]
              | b3 :: r3 =>
                  let c3 := Byte.to_N b3 in
                  if negb (is_continuation c3) then Undecodable :: utf8_pieces r2
                  else
                    match r3 with
                    | [] => [Undecodable]
                    | b4 :: r4 =>
                        let c4 := Byte.to_N b4 in
                        if is_continuation c4
                        then Decoded ((c1 - 240) * 262144 + (c2 - 128) * 4096
                                      + (c3 - 128) * 64 + (c4 - 128))
                               :: utf8_pieces r4
                        else Undecodable :: utf8_pieces r3
                    end
              end
        end
      else Undecodable :: utf8_pieces r1
  end.

(** The error handler applied to the pieces: an undecodable range is fatal
    for [Strict] ([None]: a [UnicodeDecodeError]), contributes nothing for
    [Ignore], and U+FFFD for [Replace]. *)
Fixpoint handle (h : error_handler) (ps : list piece) : option str :=
  match ps with
  | [] => Some []
  | Decoded c :: ps' =>
      match handle h ps' with
      | Some text => Some (c :: text)
      | None => None
      end
  | Undecodable :: ps' =>
      match h with
      | Strict => None
      | Ignore => handle h ps'
      | Replace =>
          match handle h ps' with
          | Some text => Some (REPLACEMENT :: text)
          | None => None
          end
      end
  end.

(** [bs.decode('utf-8', errors=h)] *)
Definition decode (h : error_handler) (bs : bytes) : option str :=
  handle h (utf8_pieces bs).

(** ** Computations that print and raise *)

(** The outcome of an expression: the exception it raised, or its value. *)
Definition result (A : Type) : Type := (exn + A)%type.

(** The outcome of statements: the lines printed (one entry per call of
    [print], without the newline [print] adds), and the exception that ended
    them or the value they produced. *)
Definition M (A : Type) : Type := (list str * result A)%type.

#[global] Instance result_ret : MRet result := λ A a, inr a.
#[global] Instance result_bind : MBind result := λ A B k r,
  match r with
  | inl e => inl e
  | inr a => k a
  end.

#[global] Instance M_ret : MRet M := λ A a, ([], inr a).
#[global] Instance M_bind : MBind M := λ A B k m,
  match m with
  | (out, inl e) => (out, inl e)
  | (out, inr a) => let '(out', r) := k a in (out ++ out', r)
  end.

Definition print (line : str) : M unit := ([line], inr tt).
Definition raise {A} (e : exn) : M A := ([], inl e).
Definition lift {A} (r : result A) : M A := ([], r).

(** [try: body  except Exception as e: handler] *)
Definition try_except {A} (body : M A) (handler : exn → M A) : M A :=
  match body with
  | (out, inl e) => let '(out', r) := handler e in (out ++ out', r)
  | (out, inr a) => (out, inr a)
  end.

(** [for x in l: body] *)
Fixpoint for_each {A} (l : list A) (body : A → M unit) : M unit :=
  match l with
  | [] => mret tt
  | x :: l' => body x;; for_each l' body
  end.

(** [next(g)] for the generator that yields the elements of [l] in order. *)
Definition next {A} (l : list A) : M A :=
  match l with
  | x :: _ => mret x
  | [] => raise (Exn StopIteration [])
  end.

(** ** The program: [http_smuggle.py] *)

(** An entry of [test_cases]. *)
Record TestCase := { name : str; request : str }.

(** An entry of [results]. *)
Record Observation := {
  test_name : str;
  response_time : float;
  connection : str;
  content_length : str
}.

(** The [test_cases] list of [test_header_parsing]. *)
Definition test_cases (host : str) : list TestCase :=
  [ {| name := lit "Both Headers";
       request :=
         (lit "POST / HTTP/1.1" ++ CRLF)
           ++ (lit "Host: " ++ host ++ CRLF)
           ++ (lit "Content-Length: 5" ++ CRLF)
           ++ (lit "Transfer-Encoding: chunked" ++ CRLF)
           ++ (lit "Connection: keep-alive" ++ CRLF ++ CRLF)
           ++ (lit "0" ++ CRLF ++ CRLF) |};
    {| name := lit "TE Only";
       request :=
         (lit "POST / HTTP/1.1" ++ CRLF)
           ++ (lit "Host: " ++ host ++ CRLF)
           ++ (lit "Transfer-Encoding: chunked" ++ CRLF)
           ++ (lit "Connection: keep-alive" ++ CRLF ++ CRLF)
           ++ (lit "0" ++ CRLF ++ CRLF) |} ].

(** What the network and the clock did in one iteration of the probe loop:
    the socket call that raised, with [str(e)], or the reading of
    [time.time()] before [send], the bytes [recv(4096)] returned and the
    reading of [time.time()] after it. *)
Inductive exchange :=
| SocketFails (msg : str)      (* socket.socket(...) *)
| ConnectFails (msg : str)     (* sock.settimeout(10), sock.connect(...) *)
| SendFails (msg : str)        (* sock.send(...) *)
| RecvFails (msg : str)        (* sock.recv(4096) *)
| Received (start_time : float) (data : bytes) (end_time : float).

(** Whether [sock] was assigned in the iteration. *)
Definition socket_created (x : exchange) : bool :=
  match x with
  | SocketFails _ => false
  | _ => true
  end.

Definition connected (x : exchange) : result unit :=
  match x with
  | SocketFails msg | ConnectFails msg => inl (Exn OSError msg)
  | _ => inr tt
  end.

Definition sent (x : exchange) : result unit :=
  match x with
  | SocketFails msg | ConnectFails msg | SendFails msg => inl (Exn OSError msg)
  | _ => inr tt
  end.

Definition received (x : exchange) : result (float * bytes * float) :=
  match x with
  | SocketFails msg | ConnectFails msg | SendFails msg | RecvFails msg =>
      inl (Exn OSError msg)
  | Received start_time data end_time => inr (start_time, data, end_time)
  end.

(** [bs.decode('utf-8', errors='ignore')] as an expression. *)
Definition decode_ignore (bs : bytes) : result str :=
  match decode Ignore bs with
  | Some text => inr text
  | None => inl (Exn UnicodeDecodeError [])
  end.

(** [key, value = l] *)
Definition unpack2 (l : list str) : result (str * str) :=
  match l with
  | [key; value] => inr (key, value)
  | [] | [_] =>
      inl (Exn ValueError
             (lit "not enough values to unpack (expected 2, got "
                ++ str_of_N (N.of_nat (length l)) ++ lit ")"))
  | _ => inl (Exn ValueError (lit "too many values to unpack (expected 2)"))
  end.

(** The exception for reading the local variable [sock] before any
    assignment to it (with the message of Python 3.11 and later). *)
Definition unbound_sock : exn :=
  Exn UnboundLocalError
      (lit "cannot access local variable 'sock' where it is not associated with a value").

Section Program.
Context `{UnicodeData}.

(** The body of the loop over the lines of the response. *)
Definition parse_line (headers : gmap str str) (line : str)
  : result (gmap str str) :=
  if contains COLON_SP line then
    '(key, value) ← unpack2 (split_n 1 COLON_SP line);
    mret (<[lower key := value]> headers)
  else mret headers.

Fixpoint parse_lines (headers : gmap str str) (lines : list str)
  : result (gmap str str) :=
  match lines with
  | [] => mret headers
  | line :: lines' =>
      headers' ← parse_line headers line;
      parse_lines headers' lines'
  end.

(** The header parsing of [test_header_parsing]: [headers] after the loop
    over [response.split('\r\n')]. *)
Definition parse_headers (response : str) : result (gmap str str) :=
  parse_lines ∅ (split CRLF response).

(** The body of [try] in the probe loop, for the exchange [x]: the entry
    appended to [results]. *)
Definition attempt (x : exchange) (test : TestCase) : result Observation :=
  _ ← connected x;
  payload ← encode (request test);
  _ ← sent x;
  '(start_time, data, end_time) ← received x;
  response ← decode_ignore data;
  let response_time := (end_time - start_time)%float in
  headers ← parse_headers response;
  mret {| test_name := name test;
          response_time := response_time;
          connection :=
            default (lit "Not specified") (headers !! lit "connection");
          content_length :=
            default (lit "Not specified") (headers !! lit "content-length") |}.

(** [sock.close()] in the [finally] clause; [bound] says whether [sock]
    has been assigned. *)
Definition close_sock (bound : bool) : M unit :=
  if bound then mret tt else raise unbound_sock.

(** The loop [for test in test_cases] from its [i]-th iteration on:
    [results] at its end.  [net i] is the exchange of iteration [i];
    [bound] and [results] are the state of the variables [sock] and
    [results] when the iteration starts. *)
Fixpoint probe_loop (net : nat → exchange) (i : nat) (tests : list TestCase)
    (bound : bool) (results : list Observation) : M (list Observation) :=
  match tests with
  | [] => mret results
  | test :: tests' =>
      results' ←
        try_except
          (obs ← lift (attempt (net i) test);
           mret (results ++ [obs]))
          (λ e,
             print (lit "Error during " ++ name test ++ lit ": " ++ exn_str e);;
             mret results);
      close_sock (bound || socket_created (net i));;
      probe_loop net (S i) tests' (bound || socket_created (net i)) results'
  end.

(** The lines of the warning printed when the rule fires. *)
Definition warning (both_headers te_only : Observation) : list str :=
  [ [LF] ++ lit "[!] Potential header parsing inconsistency detected:";
    lit "- Server returns 'Connection: close' with both headers";
    lit "- Server returns 'Connection: keep-alive' with TE only";
    lit "- Response timing differs by: "
      ++ format_2f (abs (response_time both_headers - response_time te_only))
      ++ lit "s" ].

(** The four lines printed for an entry of [results]. *)
Definition summary (r : Observation) : list str :=
  [ [LF] ++ lit "Test: " ++ test_name r;
    lit "Response time: " ++ format_2f (response_time r) ++ lit "s";
    lit "Connection header: " ++ connection r;
    lit "Content-Length header: " ++ content_length r ].

Definition analyze_results (results : list Observation) : M unit :=
  for_each results (λ r, for_each (summary r) print);;
  both_headers ←
    next (filter (λ r, test_name r = lit "Both Headers") results);
  te_only ← next (filter (λ r, test_name r = lit "TE Only") results);
  if bool_decide (lower (connection both_headers) = lit "close")
     && bool_decide (lower (connection te_only) = lit "keep-alive")
  then for_each (warning both_headers te_only) print
  else mret tt.

Definition test_header_parsing (host : str) (net : nat → exchange) : M unit :=
  results ← probe_loop net 0 (test_cases host) false [];
  analyze_results results.
End Program.

(** An instance of the Unicode data that leaves every code point outside
    ASCII as it is.  It serves to run the program on ASCII texts, which the
    lower-casing of other code points does not touch. *)
Definition ascii_only : UnicodeData := {| lower_nonascii := λ _ c _, [c] |}.

(** ** Specification vocabulary *)

(** [sep] occurs in [s] with [a] before it and [b] after it, and nowhere
    further to the left. *)
Definition first_at (sep s a b : str) : Prop :=
  s = a ++ sep ++ b ∧
  ∀ a' b', s = a' ++ sep ++ b' → (length a ≤ length a')%nat.

(** [sep.join(l)] *)
Fixpoint join (sep : str) (l : list str) : str :=
  match l with
  | [] => []
  | [x] => x
  | x :: l' => x ++ sep ++ join sep l'
  end.

(** [r] is the first entry of [results] with the test name [n]. *)
Definition first_named (n : str) (results : list Observation) (r : Observation)
  : Prop :=
  ∃ before after,
    results = before ++ r :: after ∧ test_name r = n ∧
    ∀ r', r' ∈ before → test_name r' ≠ n.

(** No entry of [results] has the test name [n]. *)
Definition missing (n : str) (results : list Observation) : Prop :=
  ∀ r, r ∈ results → test_name r ≠ n.

(** The first line of the warning is among the printed lines. *)
Definition finding_emitted (out : list str) : Prop :=
  ([LF] ++ lit "[!] Potential header parsing inconsistency detected:") ∈ out.

(** ASCII white space, which [str.strip] would remove. *)
Definition ascii_space (c : codepoint) : Prop :=
  c = 32 ∨ (9 ≤ c ∧ c ≤ 13).

(** A code point that UTF-8 encodes. *)
Definition encodable (c : codepoint) : Prop :=
  is_surrogate c = false ∧ c < 1114112.

(** A byte that starts no well-formed sequence: a continuation byte, [0xC0],
    [0xC1], or [0xF5] and above. *)
Definition stray_byte (b : byte) : Prop :=
  (128 ≤ Byte.to_N b ∧ Byte.to_N b < 194) ∨ 245 ≤ Byte.to_N b.

(** The code points of the well-formed sequences among the pieces. *)
Definition decoded_chars (ps : list piece) : str :=
  omap (λ p, match p with Decoded c => Some c | Undecodable => None end) ps.

(** The pieces as text, U+FFFD standing for an undecodable range. *)
Definition replaced_chars (ps : list piece) : str :=
  map (λ p, match p with Decoded c => c | Undecodable => REPLACEMENT end) ps.

(** [v] begins or ends with ASCII white space. *)
Definition outer_space (v : str) : Prop :=
  ∃ c w, ascii_space c ∧ (v = c :: w ∨ v = w ++ [c]).

Section Vocabulary.
Context `{UnicodeData}.

(** The entries of the test cases whose exchange went through, in order:
    the [i]-th exchange is that of the first test case. *)
Fixpoint observed (net : nat → exchange) (i : nat) (tests : list TestCase)
  : list Observation :=
  match tests with
  | [] => []
  | test :: tests' =>
      match attempt (net i) test with
      | inr obs => obs :: observed net (S i) tests'
      | inl _ => observed net (S i) tests'
      end
  end.

(** The lines printed for the test cases whose exchange raised. *)
Fixpoint reported (net : nat → exchange) (i : nat) (tests : list TestCase)
  : list str :=
  match tests with
  | [] => []
  | test :: tests' =>
      match attempt (net i) test with
      | inr _ => reported net (S i) tests'
      | inl e =>
          (lit "Error during " ++ name test ++ lit ": " ++ exn_str e)
            :: reported net (S i) tests'
      end
  end.

(** The summaries [analyze_results] prints for [results]. *)
Definition summaries (results : list Observation) : list str :=
  concat (map summary results).

(** [line] is a header line for [name] with [value]: the text before its
    first [': '], in lower case, is [name], and the text after it is
    [value]. *)
Definition header_line (line name value : str) : Prop :=
  ∃ key, first_at COLON_SP line key value ∧ name = lower key.

(** The entry a line adds to [headers], if any. *)
Definition line_entry (line : str) : option (str * str) :=
  match cut COLON_SP line with
  | Some (key, value) => Some (lower key, value)
  | None => None
  end.

(** [headers] with the entry of [line] added. *)
Definition add_line (headers : gmap str str) (line : str) : gmap str str :=
  match line_entry line with
  | Some (name, value) => <[name := value]> headers
  | None => headers
  end.
End Vocabulary.

(** ** Example inputs *)

(** ["Not specified"] *)
Definition NOT_SPECIFIED : str := lit "Not specified".

(** The scenario of a server that closes the connection when both framing
    headers are present, written in mixed case. *)
Definition both_mixed_case : Observation :=
  {| test_name := lit "Both Headers"; response_time := 0.5%float;
     connection := lit "Close"; content_length := NOT_SPECIFIED |}.

Definition te_mixed_case : Observation :=
  {| test_name := lit "TE Only"; response_time := 0.2%float;
     connection := lit "KEEP-ALIVE"; content_length := NOT_SPECIFIED |}.

(** A value with the white space a server may send after the colon. *)
Definition both_padded : Observation :=
  {| test_name := lit "Both Headers"; response_time := 0.5%float;
     connection := lit " close"; content_length := NOT_SPECIFIED |}.

Definition te_plain : Observation :=
  {| test_name := lit "TE Only"; response_time := 0.2%float;
     connection := lit "keep-alive"; content_length := NOT_SPECIFIED |}.

(** A response with the same header name on two lines. *)
Definition duplicate_response : str :=
  lit "HTTP/1.1 200 OK" ++ CRLF
    ++ lit "Connection: close" ++ CRLF
    ++ lit "Connection: keep-alive" ++ CRLF ++ CRLF.

(** The header block of the specification's round trip. *)
Definition crafted_headers : str :=
  lit "Connection: close" ++ CRLF ++ lit "Content-Length: 10" ++ CRLF ++ CRLF.

(** A response whose body holds a line with a colon and a space. *)
Definition body_response : str :=
  lit "HTTP/1.1 200 OK" ++ CRLF
    ++ lit "Content-Length: 13" ++ CRLF ++ CRLF
    ++ lit "X-Injected: 1" ++ CRLF.

(** Bytes with one that is no UTF-8 between two letters: [b"a\xffb"]. *)
Definition stray_response : bytes := ["a"; "255"; "b"]%byte.

(** The network of a machine on which no socket can be opened. *)
Definition no_sockets (i : nat) : exchange :=
  SocketFails (lit "[Errno 24] Too many open files").

(** The bytes of an ASCII text. *)
Definition ascii_bytes (text : str) : bytes := map byte_of_N text.

(** The second test case built for the host [example.com]. *)
Definition example_case : TestCase :=
  {| name := lit "TE Only";
     request :=
       lit "POST / HTTP/1.1" ++ CRLF ++ lit "Host: example.com" ++ CRLF
         ++ lit "Transfer-Encoding: chunked" ++ CRLF
         ++ lit "Connection: keep-alive" ++ CRLF ++ CRLF
         ++ lit "0" ++ CRLF ++ CRLF |}.

(** A server that answers both requests, closing the connection on the
    first: the scenario the rule looks for. *)
Definition inconsistent_server (i : nat) : exchange :=
  match i with
  | O =>
      Received 10 (ascii_bytes (lit "HTTP/1.1 400 Bad Request" ++ CRLF
                                  ++ lit "Connection: close" ++ CRLF ++ CRLF))
               10.5
  | _ =>
      Received 12 (ascii_bytes (lit "HTTP/1.1 200 OK" ++ CRLF
                                  ++ lit "Connection: keep-alive" ++ CRLF
                                  ++ lit "Content-Length: 0" ++ CRLF ++ CRLF))
               12.25
  end%float.

(** The same server with a second space after the colon of the first
    [Connection] header. *)
Definition padding_server (i : nat) : exchange :=
  match i with
  | O =>
      Received 10 (ascii_bytes (lit "HTTP/1.1 400 Bad Request" ++ CRLF
                                  ++ lit "Connection:  close" ++ CRLF ++ CRLF))
               10.5
  | _ => inconsistent_server i
  end%float.

(** A server whose answer to the second request does not arrive in time. *)
Definition timeout_server (i : nat) : exchange :=
  match i with
  | O => inconsistent_server i
  | _ => RecvFails (lit "timed out")
  end.

(** ** The entry point: [main] *)

(** What [main] reads of the value [urlparse] returns: [.hostname], which
    is [None] when the URL has no host, and [.port], which is [None] when
    the URL has no port and raises [ValueError] when the port is no number
    in range. *)
Record ParseResult := {
  hostname : option str;
  port : result (option N)
}.

(** [f"{x}"] for [x] a [str] or [None]. *)
Definition format_optional (x : option str) : str :=
  default (lit "None") x.

(** ['://'] *)
Definition SCHEME_SEP : str := lit "://".

(** The argument of [urlparse] in [main]:
    [args.url if '://' in args.url else f'http://{args.url}']. *)
Definition target_url (url : str) : str :=
  if contains SCHEME_SEP url then url else lit "http://" ++ url.

(** [p or 80] for [p] an [int] or [None]. *)
Definition port_or_80 (p : option N) : N :=
  match p with
  | Some n => if n =? 0 then 80 else n
  | None => 80
  end.

Section Main.
Context `{UnicodeData}.

(** [urllib.parse.urlparse] is a function of the interpreter's library; it
    is a parameter of the model, and so is the network, which now depends
    on the host and the port [connect] is given. *)
Variable urlparse : str → result ParseResult.
Variable network : option str → N → nat → exchange.

(** [main], for the command-line argument [url]. *)
Definition main (url : str) : M unit :=
  parsed_url ← lift (urlparse (target_url url));
  let host := hostname parsed_url in
  p ← lift (port parsed_url);
  let port := port_or_80 p in
  print (lit "Testing " ++ format_optional host ++ lit ":" ++ str_of_N port
           ++ lit " for header parsing behavior...");;
  test_header_parsing (format_optional host) (network host port).
End Main.

(** ** More specification vocabulary *)

(** A decimal digit. *)
Definition digit (c : codepoint) : Prop := 48 ≤ c ∧ c ≤ 57.

(** Text of ASCII code points only. *)
Definition ascii_text (s : str) : Prop := Forall (λ c, c < 128) s.

(** A [urlparse] that finds the host [example.com] and no port in every
    URL, and a network that answers as [inconsistent_server] does. *)
Definition example_urlparse (url : str) : result ParseResult :=
  inr {| hostname := Some (lit "example.com"); port := inr None |}.

Definition example_network (host : option str) (port : N) : nat → exchange :=
  inconsistent_server.

(** The text ["é€😀"]: code points of two, three and four bytes. *)
Definition multibyte_text : str := [233; 8364; 128512].

(** A response whose lines end in a bare LF. *)
Definition lf_response : str :=
  lit "HTTP/1.1 200 OK" ++ [LF] ++ lit "Connection: close" ++ [LF] ++ [LF].

(** ** Proof automation *)

(** Linear arithmetic with division and remainder by a constant. *)
Ltac div_lia := zify; Z.to_euclidean_division_equations; lia.

(** Settles a comparison in the goal that arithmetic decides. *)
Ltac decide_test :=
  match goal with
  | |- context [N.ltb ?a ?b] =>
      first [ rewrite (proj2 (N.ltb_lt a b)) by div_lia
            | rewrite (proj2 (N.ltb_ge a b)) by div_lia ]
  | |- context [N.leb ?a ?b] =>
      first [ rewrite (proj2 (N.leb_le a b)) by div_lia
            | rewrite (proj2 (N.leb_gt a b)) by div_lia ]
  | |- context [N.eqb ?a ?b] =>
      first [ rewrite (proj2 (N.eqb_eq a b)) by div_lia
            | rewrite (proj2 (N.eqb_neq a b)) by div_lia ]
  end.

(** Closes the case of the decoder's step in which the bytes before [rest]
    are an undecodable range. *)
Ltac undecodable rest :=
  right; exists rest; split; [reflexivity|simpl; lia].

(** Settles the case of a run whose end and whose attempts are known. *)
Ltac settle_outcome :=
  repeat split; intros;
  repeat match goal with
         | H : _ ∧ _ |- _ => destruct H
         | H : ∃ _, _ |- _ => destruct H
         | H : _ ∨ _ |- _ => destruct H
         end;
  try congruence; eauto.

(** ** Text primitives *)

Lemma startswith_app p t : startswith p (p ++ t) = true.
Proof.
  induction p as [|c p IH]; simpl; [done|].
  rewrite bool_decide_eq_true_2 by done. exact IH.
Qed.

Lemma startswith_drop p s : startswith p s = true → s = p ++ drop (length p) s.
Proof.
  revert s. induction p as [|c p IH]; intros [|d s]; simpl; try done.
  intros [Hc Hp]%andb_prop. apply bool_decide_eq_true in Hc as ->.
  f_equal. by apply IH.
Qed.

Lemma startswith_false p s : startswith p s = false → ∀ t, s ≠ p ++ t.
Proof.
  intros Hf t ->. by rewrite startswith_app in Hf.
Qed.

Lemma cut_sound sep s a b : cut sep s = Some (a, b) → first_at sep s a b.
Proof.
  revert a b. induction s as [|c s IH]; intros a b.
  - simpl. destruct (startswith sep []) eqn:Hp; [|done].
    intros [= <- <-]. split; [by apply startswith_drop|]. intros; simpl; lia.
  - simpl. destruct (startswith sep (c :: s)) eqn:Hp.
    + intros [= <- <-]. split; [by apply startswith_drop|]. intros; simpl; lia.
    + destruct (cut sep s) as [[a0 b0]|] eqn:Hc; [|done].
      intros [= <- <-]. destruct (IH _ _ eq_refl) as [-> Hmin].
      split; [done|]. intros [|c' a'] b' Heq.
      * by apply startswith_false with (t := b') in Hp.
      * injection Heq as -> Heq. specialize (Hmin _ _ Heq). simpl. lia.
Qed.

Lemma cut_startswith sep s :
  startswith sep s = true → cut sep s = Some ([], drop (length sep) s).
Proof. intros Hp. destruct s; simpl; by rewrite Hp. Qed.

Lemma cut_complete sep a b : is_Some (cut sep (a ++ sep ++ b)).
Proof.
  induction a as [|c a IH].
  - rewrite app_nil_l, cut_startswith; [done|]. apply startswith_app.
  - simpl. destruct (startswith sep (c :: a ++ sep ++ b)); [done|].
    destruct IH as [[a0 b0] ->]. done.
Qed.

Lemma first_at_unique sep s a b a' b' :
  first_at sep s a b → first_at sep s a' b' → a = a' ∧ b = b'.
Proof.
  intros [H1 M1] [H2 M2].
  assert (length a = length a') as Hlen.
  { specialize (M1 _ _ H2). specialize (M2 _ _ H1). lia. }
  rewrite H1 in H2. apply app_inj_1 in H2 as [-> H2]; [|done].
  by apply app_inv_head in H2 as ->.
Qed.

Lemma cut_first_at sep s a b : cut sep s = Some (a, b) ↔ first_at sep s a b.
Proof.
  split; [apply cut_sound|]. intros Hf.
  destruct Hf as [Hs Hmin]. destruct (cut_complete sep a b) as [[a0 b0] Hc].
  rewrite <- Hs in Hc. rewrite Hc.
  destruct (first_at_unique sep s a0 b0 a b) as [-> ->]; [|done..].
  by apply cut_sound.
Qed.

Lemma cut_None sep s : cut sep s = None ↔ ∀ a b, s ≠ a ++ sep ++ b.
Proof.
  split.
  - intros Hn a b ->. destruct (cut_complete sep a b) as [? Hc]. congruence.
  - intros Hno. destruct (cut sep s) as [[a b]|] eqn:Hc; [|done].
    apply cut_sound in Hc as [Hs _]. by destruct (Hno a b).
Qed.

Lemma contains_cut sep s : contains sep s = true ↔ is_Some (cut sep s).
Proof.
  induction s as [|c s IH]; simpl.
  - destruct (startswith sep []); simpl; [by eauto|].
    split; [done|]. by intros [? ?].
  - destruct (startswith sep (c :: s)); simpl; [by eauto|].
    rewrite IH. destruct (cut sep s) as [[a b]|]; [by eauto|].
    split; by intros [? ?].
Qed.

(** [sep in s] is true exactly when [sep] occurs in [s]. *)
Lemma contains_spec sep s : contains sep s = true ↔ ∃ a b, s = a ++ sep ++ b.
Proof.
  rewrite contains_cut. split.
  - intros [[a b] Hc]. apply cut_sound in Hc as [-> _]. eauto.
  - intros (a & b & ->). apply cut_complete.
Qed.

Lemma contains_false_cut sep s : contains sep s = false ↔ cut sep s = None.
Proof.
  destruct (contains sep s) eqn:Hc.
  - apply contains_cut in Hc as [? ->]. by split.
  - split; [|done]. intros _. destruct (cut sep s) eqn:Hcut; [|done].
    assert (contains sep s = true) by (apply contains_cut; eauto). congruence.
Qed.

Lemma cut_length sep s a b :
  cut sep s = Some (a, b) → length s = (length a + length sep + length b)%nat.
Proof.
  intros [-> _]%cut_sound. rewrite !length_app. lia.
Qed.

Lemma cut_nil sep : sep ≠ [] → cut sep [] = None.
Proof. by destruct sep. Qed.

(** Enough splits: beyond [length s] the bound on the number of splits makes
    no difference. *)
Lemma split_n_enough sep n s :
  sep ≠ [] → (length s ≤ n)%nat → split_n n sep s = split sep s.
Proof.
  intros Hsep. unfold split.
  assert (∀ n m s, (length s ≤ n)%nat → (length s ≤ m)%nat →
                   split_n n sep s = split_n m sep s) as Hnm; [|by eauto].
  clear n s. induction n as [|n IH]; intros m s Hn Hm.
  - destruct s; [|simpl in Hn; lia].
    destruct m; cbn [split_n]; [done|]. by rewrite cut_nil.
  - cbn [split_n]. destruct (cut sep s) as [[a b]|] eqn:Hc.
    + pose proof (cut_length _ _ _ _ Hc) as Hlen.
      assert (length sep ≠ 0%nat) by (by destruct sep).
      destruct m as [|m]; [lia|]. cbn [split_n]. rewrite Hc.
      f_equal. apply IH; lia.
    + destruct m; cbn [split_n]; [done|]. by rewrite Hc.
Qed.

Lemma split_n_nonempty n sep s : split_n n sep s ≠ [].
Proof. destruct n; cbn [split_n]; [done|]. by destruct (cut sep s) as [[? ?]|]. Qed.

Lemma join_cons sep x l : l ≠ [] → join sep (x :: l) = x ++ sep ++ join sep l.
Proof. by destruct l. Qed.

Lemma join_split_n sep n s : join sep (split_n n sep s) = s.
Proof.
  revert s. induction n as [|n IH]; intros s; cbn [split_n]; [done|].
  destruct (cut sep s) as [[a b]|] eqn:Hc; [|done].
  rewrite join_cons by apply split_n_nonempty.
  rewrite IH. by apply cut_sound in Hc as [-> _].
Qed.

Lemma cut_before_free sep s a b :
  sep ≠ [] → cut sep s = Some (a, b) → contains sep a = false.
Proof.
  intros Hsep [Hs Hmin]%cut_sound.
  apply not_true_iff_false. intros (a1 & a2 & ->)%contains_spec.
  specialize (Hmin a1 (a2 ++ sep ++ b)).
  rewrite <- !app_assoc in Hs. specialize (Hmin Hs).
  rewrite !length_app in Hmin.
  assert (length sep ≠ 0%nat) by (by destruct sep). lia.
Qed.

Lemma split_pieces_free sep s :
  sep ≠ [] → Forall (λ piece, contains sep piece = false) (split sep s).
Proof.
  intros Hsep. unfold split.
  assert (∀ n s, (length s ≤ n)%nat →
            Forall (λ piece, contains sep piece = false) (split_n n sep s))
    as Hn; [|by eauto].
  clear s. induction n as [|n IH]; intros s Hlen.
  - destruct s; [|simpl in Hlen; lia].
    constructor; [|done]. apply contains_false_cut. by apply cut_nil.
  - cbn [split_n]. destruct (cut sep s) as [[a b]|] eqn:Hc.
    + constructor; [by eapply cut_before_free|].
      apply IH. apply cut_length in Hc.
      assert (length sep ≠ 0%nat) by (by destruct sep). lia.
    + constructor; [|done]. by apply contains_false_cut.
Qed.

(** ** Header parsing *)

Section Parsing.
Context `{UnicodeData}.

Lemma header_line_entry line name value :
  header_line line name value ↔ line_entry line = Some (name, value).
Proof.
  unfold header_line, line_entry. split.
  - intros (key & Hf%cut_first_at & ->). by rewrite Hf.
  - destruct (cut COLON_SP line) as [[key v]|] eqn:Hc; [|done].
    intros [= <- <-]. exists key. by apply cut_first_at in Hc.
Qed.

Lemma line_entry_None line :
  contains COLON_SP line = false ↔ line_entry line = None.
Proof.
  rewrite contains_false_cut. unfold line_entry.
  by destruct (cut COLON_SP line) as [[? ?]|].
Qed.

(** The loop body adds the entry of the line and never raises. *)
Lemma parse_line_add headers line :
  parse_line headers line = inr (add_line headers line).
Proof.
  unfold parse_line, add_line, line_entry.
  destruct (contains COLON_SP line) eqn:Hc.
  - apply contains_cut in Hc as [[key value] Hc].
    cbn [split_n]. by rewrite Hc.
  - apply contains_false_cut in Hc. by rewrite Hc.
Qed.

Lemma parse_lines_foldl headers lines :
  parse_lines headers lines = inr (foldl add_line headers lines).
Proof.
  revert headers. induction lines as [|line lines IH]; intros headers; [done|].
  simpl. rewrite parse_line_add. simpl. apply IH.
Qed.

Lemma parse_headers_foldl response :
  parse_headers response = inr (foldl add_line ∅ (split CRLF response)).
Proof. apply parse_lines_foldl. Qed.

Lemma add_line_lookup_ne headers line name :
  (∀ value, ¬ header_line line name value) →
  add_line headers line !! name = headers !! name.
Proof.
  intros Hno. unfold add_line.
  destruct (line_entry line) as [[k v]|] eqn:He; [|done].
  apply lookup_insert_ne. intros ->.
  by apply header_line_entry in He; apply Hno in He.
Qed.

Lemma foldl_add_line_lookup_ne headers lines name :
  (∀ line value, line ∈ lines → ¬ header_line line name value) →
  foldl add_line headers lines !! name = headers !! name.
Proof.
  revert headers. induction lines as [|line lines IH]; intros headers Hno; [done|].
  simpl. rewrite IH.
  - apply add_line_lookup_ne. intros value. apply Hno. by left.
  - intros l v Hl. apply Hno. by right.
Qed.

(** The value of a name is that of the last line bearing the name. *)
Lemma foldl_add_line_last headers before line after name value :
  header_line line name value →
  (∀ line' value', line' ∈ after → ¬ header_line line' name value') →
  foldl add_line headers (before ++ line :: after) !! name = Some value.
Proof.
  intros Hl Hafter. rewrite foldl_app. simpl.
  rewrite foldl_add_line_lookup_ne by done.
  apply header_line_entry in Hl. unfold add_line. rewrite Hl.
  apply lookup_insert_eq.
Qed.

(** Every entry comes from a line, or was there before. *)
Lemma foldl_add_line_Some headers lines name value :
  foldl add_line headers lines !! name = Some value →
  headers !! name = Some value ∨
  ∃ line, line ∈ lines ∧ header_line line name value.
Proof.
  revert headers. induction lines as [|line lines IH]; intros headers; [by left|].
  simpl. intros [Hin|(l & Hl & Hh)]%IH.
  - unfold add_line in Hin.
    destruct (line_entry line) as [[k v]|] eqn:He; [|by left].
    destruct (decide (k = name)) as [->|Hne].
    + rewrite lookup_insert_eq in Hin. injection Hin as ->.
      right. exists line. split; [by left|]. by apply header_line_entry.
    + rewrite lookup_insert_ne in Hin by done. by left.
  - right. exists l. split; [by right|done].
Qed.

(** Every header line leaves an entry for its name. *)
Lemma foldl_add_line_is_Some headers lines line name value :
  line ∈ lines → header_line line name value →
  is_Some (foldl add_line headers lines !! name).
Proof.
  induction lines as [|l lines IH] using rev_ind; intros Hin Hh.
  - by apply elem_of_nil in Hin.
  - rewrite foldl_app. simpl. unfold add_line at 1.
    apply elem_of_app in Hin as [Hin|Hin%list_elem_of_singleton].
    + destruct (line_entry l) as [[k v]|]; [|by apply IH].
      destruct (decide (k = name)) as [->|Hne].
      * rewrite lookup_insert_eq. by eauto.
      * rewrite lookup_insert_ne by done. by apply IH.
    + subst l. apply header_line_entry in Hh. rewrite Hh.
      rewrite lookup_insert_eq. by eauto.
Qed.
End Parsing.

(** ** Lower-casing *)

Section LowerFacts.
Context `{UnicodeData}.

Lemma lower_from_last pre s c :
  c < 128 → ∃ t, lower_from pre (s ++ [c]) = t ++ [ascii_lower c].
Proof.
  intros Hc. revert pre. induction s as [|d s IH]; intros pre.
  - simpl. apply N.ltb_lt in Hc as ->. by exists [].
  - rewrite <- app_comm_cons. cbn [lower_from].
    destruct (IH (pre ++ [d])) as [t ->].
    eexists. by rewrite app_assoc.
Qed.

Lemma lower_cons_ascii c s :
  c < 128 → lower (c :: s) = ascii_lower c :: lower_from [c] s.
Proof. intros Hc. unfold lower. simpl. by apply N.ltb_lt in Hc as ->. Qed.

Lemma ascii_space_lower c : ascii_space c → c < 128 ∧ ascii_lower c = c.
Proof.
  intros Hc. split; [unfold ascii_space in Hc; lia|].
  unfold ascii_lower.
  destruct (65 <=? c) eqn:H65; [|done].
  apply N.leb_le in H65. unfold ascii_space in Hc. lia.
Qed.

(** Lower-casing removes no leading white space. *)
Lemma lower_leading_space c v : ascii_space c → ∃ t, lower (c :: v) = c :: t.
Proof.
  intros [Hc Hl]%ascii_space_lower. rewrite lower_cons_ascii by done.
  rewrite Hl. by eauto.
Qed.

(** Lower-casing removes no trailing white space. *)
Lemma lower_trailing_space c v : ascii_space c → ∃ t, lower (v ++ [c]) = t ++ [c].
Proof.
  intros [Hc Hl]%ascii_space_lower.
  destruct (lower_from_last [] v c Hc) as [t Ht].
  exists t. unfold lower. by rewrite Ht, Hl.
Qed.

(** A value with white space around it is no token in lower case: the
    comparison with a token that has none fails. *)
Lemma lower_outer_space v token first final middle :
  outer_space v →
  token = first :: middle ++ [final] →
  ¬ ascii_space first → ¬ ascii_space final →
  lower v ≠ token.
Proof.
  intros (c & w & Hc & [->| ->]) -> Hfirst Hfinal Heq.
  - destruct (lower_leading_space c w Hc) as [t Ht].
    rewrite Ht in Heq. injection Heq as -> _. done.
  - destruct (lower_trailing_space c w Hc) as [t Ht].
    rewrite Ht in Heq. rewrite app_comm_cons in Heq.
    apply app_inj_2 in Heq as [_ [= ->]]; done.
Qed.
End LowerFacts.

(** ** Printing and raising *)

Lemma for_each_print lines : for_each lines print = (lines, inr tt).
Proof.
  induction lines as [|line lines IH]; [done|].
  simpl. rewrite IH. done.
Qed.

Lemma first_named_filter n results r :
  first_named n results r →
  ∃ rest, filter (λ r, test_name r = n) results = r :: rest.
Proof.
  intros (before & after & -> & Hn & Hbefore).
  induction before as [|r' before IH].
  - simpl. rewrite filter_cons_True by done. by eauto.
  - simpl. rewrite filter_cons_False by (apply Hbefore; by left).
    apply IH. intros r'' Hr''. apply Hbefore. by right.
Qed.

Lemma missing_filter n results :
  missing n results ↔ filter (λ r, test_name r = n) results = [].
Proof.
  unfold missing. induction results as [|r results IH].
  - split; [done|]. intros _ r Hr. by apply elem_of_nil in Hr.
  - destruct (decide (test_name r = n)) as [Hn|Hn].
    + rewrite filter_cons_True by done. split; [|done].
      intros Hm. destruct (Hm r); [by left|done].
    + rewrite filter_cons_False by done. rewrite <- IH. split.
      * intros Hm r' Hr'. apply Hm. by right.
      * intros Hm r' [->|Hr']%elem_of_cons; [done|by apply Hm].
Qed.

Lemma first_named_or_missing n results :
  missing n results ∨ ∃ r, first_named n results r.
Proof.
  induction results as [|r results IH].
  - left. intros r Hr. by apply elem_of_nil in Hr.
  - destruct (decide (test_name r = n)) as [Hn|Hn].
    + right. exists r, [], results. split_and!; [done..|].
      intros r' Hr'. by apply elem_of_nil in Hr'.
    + destruct IH as [Hm|(r0 & before & after & -> & Hr0 & Hbefore)].
      * left. intros r' [->|Hr']%elem_of_cons; [done|by apply Hm].
      * right. exists r0, (r :: before), after. split_and!; [done..|].
        intros r' [->|Hr']%elem_of_cons; [done|by apply Hbefore].
Qed.

Section Analysis.
Context `{UnicodeData}.

Lemma for_each_summary results :
  for_each results (λ r, for_each (summary r) print) = (summaries results, inr tt).
Proof.
  unfold summaries. induction results as [|r results IH]; [done|].
  cbn [for_each map concat]. rewrite IH, for_each_print. done.
Qed.

(** The summaries hold no line equal to the first line of the warning. *)
Lemma summaries_no_finding results : ¬ finding_emitted (summaries results).
Proof.
  unfold finding_emitted, summaries. intros Hin.
  apply list_elem_of_In, in_concat in Hin as (lines & Hlines & Hin).
  apply in_map_iff in Hlines as (r & <- & _).
  unfold summary in Hin. simpl in Hin.
  destruct Hin as [Heq|[Heq|[Heq|[Heq|[]]]]]; discriminate Heq.
Qed.

(** What [analyze_results] does when both named entries are there. *)
Lemma analyze_results_found results both te :
  first_named (lit "Both Headers") results both →
  first_named (lit "TE Only") results te →
  analyze_results results =
    (summaries results ++
       (if bool_decide (lower (connection both) = lit "close")
           && bool_decide (lower (connection te) = lit "keep-alive")
        then warning both te else []),
     inr tt).
Proof.
  intros [rb Hb]%first_named_filter [rt Ht]%first_named_filter.
  unfold analyze_results. rewrite for_each_summary, Hb, Ht.
  cbn -[lower lit warning].
  destruct (bool_decide _ && bool_decide _).
  - rewrite for_each_print. done.
  - done.
Qed.

(** What [analyze_results] does when a named entry is not there. *)
Lemma analyze_results_not_found results :
  missing (lit "Both Headers") results ∨ missing (lit "TE Only") results →
  analyze_results results = (summaries results, inl (Exn StopIteration [])).
Proof.
  intros Hm. unfold analyze_results. rewrite for_each_summary.
  destruct Hm as [Hm|Hm].
  - apply missing_filter in Hm. rewrite Hm. cbn. by rewrite app_nil_r.
  - apply missing_filter in Hm. rewrite Hm.
    destruct (filter (λ r, test_name r = lit "Both Headers") results);
      cbn -[lit]; by rewrite app_nil_r.
Qed.
End Analysis.

(** ** UTF-8 *)

Lemma handle_ignore ps : handle Ignore ps = Some (decoded_chars ps).
Proof.
  induction ps as [|[c|] ps IH]; simpl; [done| |done].
  by rewrite IH.
Qed.

Lemma handle_replace ps : handle Replace ps = Some (replaced_chars ps).
Proof.
  induction ps as [|[c|] ps IH]; simpl; [done|..]; by rewrite IH.
Qed.

Lemma handle_strict ps :
  handle Strict ps = if decide (Undecodable ∈ ps) then None
                     else Some (decoded_chars ps).
Proof.
  induction ps as [|[c|] ps IH]; cbn [handle].
  - case_decide as Hin; [by apply elem_of_nil in Hin|done].
  - rewrite IH.
    destruct (decide (Undecodable ∈ ps)) as [Hin|Hin];
      destruct (decide (Undecodable ∈ Decoded c :: ps)) as [Hin'|Hin']; try done.
    + exfalso. apply Hin'. by right.
    + exfalso. by apply elem_of_cons in Hin' as [?|?].
  - clear IH. destruct (decide (Undecodable ∈ Undecodable :: ps)) as [Hin|Hin];
      [done|]. exfalso. apply Hin. by left.
Qed.

Lemma decode_ignore_inr bs : decode_ignore bs = inr (decoded_chars (utf8_pieces bs)).
Proof. unfold decode_ignore, decode. by rewrite handle_ignore. Qed.

Lemma encode_from_inr pos s bs :
  encode_from pos s = inr bs ↔ Forall encodable s ∧ bs = concat (map utf8_char s).
Proof.
  revert pos bs. induction s as [|c s IH]; intros pos bs; simpl.
  - split; [by intros [= <-]|by intros [_ ->]].
  - destruct (is_surrogate c) eqn:Hs.
    { split; [done|]. intros [[[? _] _]%Forall_cons _]. congruence. }
    destruct (1114112 <=? c) eqn:Hr.
    { split; [done|]. intros [[[_ Hlt] _]%Forall_cons _].
      apply N.leb_le in Hr. lia. }
    apply N.leb_gt in Hr.
    destruct (encode_from (S pos) s) as [e|bs'] eqn:He.
    + split; [done|]. intros [[_ Hs']%Forall_cons _].
      assert (encode_from (S pos) s = inr (concat (map utf8_char s))) as He'
        by (by apply IH).
      congruence.
    + apply IH in He as [Hall ->]. split.
      * intros [= <-]. split; [|done]. by constructor.
      * by intros [_ ->].
Qed.

Lemma encode_inr s bs :
  encode s = inr bs ↔ Forall encodable s ∧ bs = concat (map utf8_char s).
Proof. apply encode_from_inr. Qed.

Lemma encode_app a b bs :
  encode (a ++ b) = inr bs ↔
  ∃ xa xb, encode a = inr xa ∧ encode b = inr xb ∧ bs = xa ++ xb.
Proof.
  rewrite encode_inr, Forall_app, map_app, concat_app. split.
  - intros [[Ha Hb] ->]. eexists _, _. rewrite !encode_inr. by split_and!.
  - intros (xa & xb & [Ha ->]%encode_inr & [Hb ->]%encode_inr & ->). done.
Qed.

Lemma to_N_byte_of_N n : n < 256 → Byte.to_N (byte_of_N n) = n.
Proof.
  intros Hn. unfold byte_of_N. destruct (Byte.of_N n) as [b|] eqn:Hb.
  - by apply Byte.to_of_N.
  - apply Byte.of_N_None_iff in Hb. lia.
Qed.

(** The decoder reads the encoding of a code point back as that code
    point. *)
Lemma utf8_pieces_char c rest :
  encodable c → utf8_pieces (utf8_char c ++ rest) = Decoded c :: utf8_pieces rest.
Proof.
  intros [Hs Hr]. unfold is_surrogate in Hs.
  apply andb_false_iff in Hs. rewrite !N.leb_gt in Hs.
  unfold utf8_char.
  destruct (c <? 128) eqn:H1;
    [|destruct (c <? 2048) eqn:H2; [|destruct (c <? 65536) eqn:H3]];
    rewrite ?N.ltb_lt, ?N.ltb_ge in *;
    cbn [app utf8_pieces]; unfold is_continuation;
    rewrite !to_N_byte_of_N by div_lia.
  - rewrite (proj2 (N.ltb_lt c 128)) by lia. done.
  - repeat decide_test. cbn [andb]. f_equal. f_equal. div_lia.
  - repeat decide_test. cbn [andb negb orb].
    destruct (128 + c / 64 mod 64 <? 160) eqn:E;
      rewrite ?N.ltb_lt, ?N.ltb_ge in E;
      repeat decide_test; cbn [andb negb orb].
    all: f_equal; f_equal; div_lia.
  - repeat decide_test. cbn [andb negb orb].
    destruct (128 + c / 4096 mod 64 <? 144) eqn:E;
      rewrite ?N.ltb_lt, ?N.ltb_ge in E;
      repeat decide_test; cbn [andb negb orb].
    all: f_equal; f_equal; div_lia.
Qed.

Lemma utf8_pieces_encoded s rest :
  Forall encodable s →
  utf8_pieces (concat (map utf8_char s) ++ rest) = map Decoded s ++ utf8_pieces rest.
Proof.
  induction 1 as [|c s Hc _ IH]; [done|].
  cbn [map concat]. rewrite <- app_assoc, utf8_pieces_char by done.
  by rewrite IH.
Qed.

Lemma utf8_pieces_stray b rest :
  stray_byte b → utf8_pieces (b :: rest) = Undecodable :: utf8_pieces rest.
Proof.
  intros Hb. unfold stray_byte in Hb. cbn [utf8_pieces].
  destruct Hb as [[Hlo Hhi]|Hhi]; repeat decide_test; done.
Qed.

Lemma decoded_chars_app ps qs :
  decoded_chars (ps ++ qs) = decoded_chars ps ++ decoded_chars qs.
Proof. apply omap_app. Qed.

Lemma replaced_chars_app ps qs :
  replaced_chars (ps ++ qs) = replaced_chars ps ++ replaced_chars qs.
Proof. apply map_app. Qed.

Lemma decoded_chars_Decoded s : decoded_chars (map Decoded s) = s.
Proof. induction s as [|c s IH]; [done|]. cbn. by f_equal. Qed.

Lemma replaced_chars_Decoded s : replaced_chars (map Decoded s) = s.
Proof. induction s as [|c s IH]; [done|]. cbn. by f_equal. Qed.

(** ** The probe loop *)

Section Probing.
Context `{UnicodeData}.

(** One iteration, when [sock] is assigned by the time of [finally]. *)
Lemma probe_loop_step net i test tests bound results :
  bound || socket_created (net i) = true →
  probe_loop net i (test :: tests) bound results =
    match attempt (net i) test with
    | inr obs =>
        probe_loop net (S i) tests true (results ++ [obs])
    | inl e =>
        let '(out, r) := probe_loop net (S i) tests true results in
        ((lit "Error during " ++ name test ++ lit ": " ++ exn_str e) :: out, r)
    end.
Proof.
  intros Hb. cbn [probe_loop]. rewrite Hb.
  destruct (attempt (net i) test) as [e|obs]; cbn -[lit].
  - by destruct (probe_loop net (S i) tests true results).
  - by destruct (probe_loop net (S i) tests true (results ++ [obs])).
Qed.

(** The loop, once [sock] has been assigned: every test case whose
    exchange went through adds its entry, every other one prints its
    error, and the loop runs to its end. *)
Lemma probe_loop_bound net i tests results :
  probe_loop net i tests true results =
    (reported net i tests, inr (results ++ observed net i tests)).
Proof.
  revert i results. induction tests as [|test tests IH]; intros i results.
  - simpl. by rewrite app_nil_r.
  - rewrite probe_loop_step by done. cbn [reported observed].
    destruct (attempt (net i) test) as [e|obs].
    + by rewrite IH.
    + rewrite IH. by rewrite <- app_assoc.
Qed.

(** The same from the start of the loop, when the first [socket.socket]
    call does not raise. *)
Lemma probe_loop_results net tests :
  tests = [] ∨ socket_created (net 0%nat) = true →
  probe_loop net 0 tests false [] =
    (reported net 0 tests, inr (observed net 0 tests)).
Proof.
  intros [->|Hs]; [done|]. destruct tests as [|test tests]; [done|].
  rewrite probe_loop_step by done. cbn [reported observed].
  destruct (attempt (net 0%nat) test) as [e|obs]; by rewrite probe_loop_bound.
Qed.

(** The first iteration, when [socket.socket] raises in it: [sock] is
    unassigned in [finally]. *)
Lemma probe_loop_unbound net test tests results msg :
  net 0%nat = SocketFails msg →
  probe_loop net 0 (test :: tests) false results =
    ([lit "Error during " ++ name test ++ lit ": " ++ msg],
     inl unbound_sock).
Proof. intros Hn. cbn [probe_loop]. rewrite Hn. done. Qed.

(** An entry carries the name of its test case. *)
Lemma attempt_test_name x test obs :
  attempt x test = inr obs → test_name obs = name test.
Proof.
  unfold attempt. destruct (connected x); [done|].
  destruct (encode (request test)); [done|].
  destruct (sent x); [done|].
  destruct (received x) as [|[[start_time data] end_time]]; [done|].
  cbn -[lit decode_ignore parse_headers].
  destruct (decode_ignore data); [done|].
  cbn -[lit parse_headers].
  destruct (parse_headers _); [done|].
  by intros [= <-].
Qed.

(** The body of [try] yields an entry exactly when the exchange went
    through and the request could be encoded: decoding and header parsing
    never raise. *)
Lemma attempt_inr_iff x test :
  (∃ obs, attempt x test = inr obs) ↔
  (∃ start_time data end_time, x = Received start_time data end_time) ∧
  (∃ payload, encode (request test) = inr payload).
Proof.
  split.
  - intros [obs Ho]. unfold attempt in Ho.
    destruct (encode (request test)) as [e|payload] eqn:He.
    { destruct (connected x); done. }
    split; [|by eauto]. destruct x; try done. by eauto.
  - intros [(start_time & data & end_time & ->) [payload He]].
    unfold attempt. rewrite He.
    cbn -[lit decode_ignore parse_headers].
    rewrite decode_ignore_inr. cbn -[lit parse_headers].
    rewrite parse_headers_foldl. by eexists.
Qed.
End Probing.

(** ** Whole runs *)

Section Runs.
Context `{UnicodeData}.

(** A run in which the first socket is opened and one of the two probes
    raises ends with [StopIteration]. *)
Lemma failed_probe_ends_run host net both te :
  test_cases host = [both; te] →
  socket_created (net 0%nat) = true →
  (∃ e, attempt (net 0%nat) both = inl e) ∨
  (∃ e, attempt (net 1%nat) te = inl e) →
  ∃ out, test_header_parsing host net = (out, inl (Exn StopIteration [])).
Proof.
  intros Htests Hs Hfail. unfold test_header_parsing.
  rewrite probe_loop_results by (by right).
  assert (missing (lit "Both Headers") (observed net 0 (test_cases host)) ∨
          missing (lit "TE Only") (observed net 0 (test_cases host))) as Hm.
  { rewrite Htests. injection Htests as <- <-.
    cbn -[lit attempt] in *.
    destruct Hfail as [[e He]|[e He]]; rewrite He.
    - left. destruct (attempt (net 1%nat) _) as [|obs] eqn:Ho.
      + intros r Hr. by apply elem_of_nil in Hr.
      + intros r ->%list_elem_of_singleton.
        apply attempt_test_name in Ho. rewrite Ho. by vm_compute.
    - right. destruct (attempt (net 0%nat) _) as [|obs] eqn:Ho.
      + intros r Hr. by apply elem_of_nil in Hr.
      + intros r ->%list_elem_of_singleton.
        apply attempt_test_name in Ho. rewrite Ho. by vm_compute. }
  apply analyze_results_not_found in Hm.
  unfold mbind, M_bind. rewrite Hm. by eexists.
Qed.

End Runs.

(** ** The claims of the specification *)

Section Claims.
Context `{UnicodeData}.

(** C1 (the code departs from it).  The specification has the analyzer
    skip the inconsistency check, and raise nothing, when one of the two
    named entries is absent from [results].  The code prints the
    summaries of the entries there are and prints no warning, but
    [next(...)] then raises [StopIteration], which nothing catches: for
    every results list that lacks one of the two names, the analysis ends
    with that exception. *)
Theorem analyze_results_missing_raises results :
  missing (lit "Both Headers") results ∨ missing (lit "TE Only") results →
  ∃ out,
    analyze_results results = (out, inl (Exn StopIteration [])) ∧
    out = summaries results ∧
    ¬ finding_emitted out.
Proof.
  intros Hm. exists (summaries results). split_and!.
  - by apply analyze_results_not_found.
  - done.
  - apply summaries_no_finding.
Qed.

(** C2 (amended).  When both named entries are there, the analysis ends
    without an exception; the warning is printed if and only if the
    connection value of "Both Headers" in lower case is ["close"] and
    that of "TE Only" in lower case is ["keep-alive"]; when printed, it
    follows the summaries and names the two values in lower case, not as
    received, and the absolute difference of the response times to two
    decimal places; otherwise only the summaries are printed. *)
Theorem inconsistency_rule results both te :
  first_named (lit "Both Headers") results both →
  first_named (lit "TE Only") results te →
  ∃ out,
    analyze_results results = (out, inr tt) ∧
    (finding_emitted out ↔
       lower (connection both) = lit "close" ∧
       lower (connection te) = lit "keep-alive") ∧
    (finding_emitted out →
       out = summaries results ++
         [ [LF] ++ lit "[!] Potential header parsing inconsistency detected:";
           lit "- Server returns 'Connection: " ++ lower (connection both)
             ++ lit "' with both headers";
           lit "- Server returns 'Connection: " ++ lower (connection te)
             ++ lit "' with TE only";
           lit "- Response timing differs by: "
             ++ format_2f (abs (response_time both - response_time te))
             ++ lit "s" ]) ∧
    (¬ finding_emitted out → out = summaries results).
Proof.
  intros Hb Ht. eexists. split; [by apply analyze_results_found|].
  destruct (bool_decide (lower (connection both) = lit "close")) eqn:Eb;
    [destruct (bool_decide (lower (connection te) = lit "keep-alive")) eqn:Et|];
    cbn [andb].
  - apply bool_decide_eq_true in Eb, Et.
    assert (finding_emitted (summaries results ++ warning both te)) as Hf.
    { apply elem_of_app. right. by left. }
    split_and!; [done| |done].
    intros _. rewrite Eb, Et. done.
  - apply bool_decide_eq_false in Et. rewrite app_nil_r.
    pose proof (summaries_no_finding results). split_and!; [|done..].
    split; [done|]. by intros [_ ?].
  - apply bool_decide_eq_false in Eb. rewrite app_nil_r.
    pose proof (summaries_no_finding results). split_and!; [|done..].
    split; [done|]. by intros [? _].
Qed.

(** C3 (amended).  When several lines of the response bear the same
    header name, the HeaderMap holds the value of the last of them: for
    every text and every line of it that is a header line for a name and
    is followed by no header line for that name, the name is mapped to
    the value of that line. *)
Theorem last_duplicate_wins text before line after name value :
  split CRLF text = before ++ line :: after →
  header_line line name value →
  (∀ line' value', line' ∈ after → ¬ header_line line' name value') →
  ∃ headers,
    parse_headers text = inr headers ∧ headers !! name = Some value.
Proof.
  intros Hsplit Hline Hafter. eexists. split; [apply parse_headers_foldl|].
  rewrite Hsplit. by apply foldl_add_line_last.
Qed.

(** C4 (amended).  Decoding never raises, and an undecodable range of bytes
    is dropped, not replaced: the text is the code points of the
    well-formed sequences alone.  In particular a stray byte between the
    encodings of two texts leaves the two texts side by side, where the
    [replace] handler would put U+FFFD between them. *)
Theorem undecodable_bytes_dropped :
  (∀ data, decode_ignore data = inr (decoded_chars (utf8_pieces data))) ∧
  (∀ before after bytes_before bytes_after b,
     encode before = inr bytes_before →
     encode after = inr bytes_after →
     stray_byte b →
     decode_ignore (bytes_before ++ b :: bytes_after) = inr (before ++ after) ∧
     decode Replace (bytes_before ++ b :: bytes_after)
       = Some (before ++ REPLACEMENT :: after)).
Proof.
  split; [apply decode_ignore_inr|].
  intros before after bb ba b [Hb ->]%encode_inr [Ha ->]%encode_inr Hstray.
  assert (utf8_pieces (concat (map utf8_char before)
                         ++ b :: concat (map utf8_char after))
          = map Decoded before ++ Undecodable :: map Decoded after) as Hp.
  { rewrite utf8_pieces_encoded, utf8_pieces_stray by done.
    pose proof (utf8_pieces_encoded after [] Ha) as Hafter.
    rewrite !app_nil_r in Hafter. by rewrite Hafter. }
  split.
  - rewrite decode_ignore_inr, Hp, decoded_chars_app.
    change (decoded_chars (Undecodable :: map Decoded after))
      with (decoded_chars (map Decoded after)).
    by rewrite !decoded_chars_Decoded.
  - unfold decode. rewrite handle_replace, Hp, replaced_chars_app.
    change (replaced_chars (Undecodable :: map Decoded after))
      with (REPLACEMENT :: replaced_chars (map Decoded after)).
    by rewrite !replaced_chars_Decoded.
Qed.

(** C5.  For every host the request builder yields two test cases, "Both
    Headers" then "TE Only"; the request of the first is that of the second
    with the line [Content-Length: 5\r\n] after the [Host] line, as text
    and, whenever the text can be encoded, as bytes; one request can be
    encoded whenever the other can.  The list is a function of the host
    alone: two builds for the same host are equal. *)
Theorem request_builder host :
  ∃ head tail,
    head = lit "POST / HTTP/1.1" ++ CRLF ++ lit "Host: " ++ host ++ CRLF ∧
    tail = lit "Transfer-Encoding: chunked" ++ CRLF
             ++ lit "Connection: keep-alive" ++ CRLF ++ CRLF
             ++ lit "0" ++ CRLF ++ CRLF ∧
    test_cases host =
      [ {| name := lit "Both Headers";
           request := head ++ (lit "Content-Length: 5" ++ CRLF) ++ tail |};
        {| name := lit "TE Only"; request := head ++ tail |} ] ∧
    (∀ te_bytes,
       encode (head ++ tail) = inr te_bytes →
       ∃ head_bytes tail_bytes,
         encode head = inr head_bytes ∧
         encode tail = inr tail_bytes ∧
         te_bytes = head_bytes ++ tail_bytes ∧
         encode (head ++ (lit "Content-Length: 5" ++ CRLF) ++ tail)
           = inr (head_bytes
                    ++ map byte_of_N (lit "Content-Length: 5" ++ CRLF)
                    ++ tail_bytes)) ∧
    ((∃ both_bytes,
        encode (head ++ (lit "Content-Length: 5" ++ CRLF) ++ tail)
          = inr both_bytes) →
     ∃ te_bytes, encode (head ++ tail) = inr te_bytes) ∧
    (∀ host', host' = host → test_cases host' = test_cases host).
Proof.
  eexists _, _. split; [done|]. split; [done|]. split_and!.
  - unfold test_cases. by rewrite <- !app_assoc.
  - intros te_bytes (hb & tb & Hh & Ht & ->)%encode_app.
    exists hb, tb. split_and!; [done..|].
    apply encode_app. eexists _, _. split; [done|]. split; [|done].
    apply encode_app. eexists _, _. split; [by vm_compute|]. by split.
  - intros [bb (hb & x & Hh & (cb & tb & _ & Ht & _)%encode_app & _)%encode_app].
    eexists. apply encode_app. by eauto.
  - by intros host' ->.
Qed.

(** C6.  Header extraction splits the text on CRLF: the lines joined by
    CRLF are the text, and no line holds a CRLF.  A line without [": "]
    leaves the map as it is; a line with [": "] maps the text before its
    first occurrence, in lower case, to the text after it.  The map after
    all lines has an entry for a name exactly when some line is a header
    line for it, every value in it is that of such a line, and a header
    line that no header line for the same name follows has its value in
    the map.  Extraction never raises.  For the crafted header block the
    map is [{"connection": "close", "content-length": "10"}], with or
    without a status line in front. *)
Theorem header_extraction :
  (∀ text,
     join CRLF (split CRLF text) = text ∧
     Forall (λ line, contains CRLF line = false) (split CRLF text)) ∧
  (∀ headers line,
     contains COLON_SP line = false → parse_line headers line = inr headers) ∧
  (∀ headers line key value,
     first_at COLON_SP line key value →
     contains COLON_SP line = true ∧
     parse_line headers line = inr (<[lower key := value]> headers)) ∧
  (∀ text, ∃ headers,
     parse_headers text = inr headers ∧
     (∀ name, is_Some (headers !! name) ↔
        ∃ line value, line ∈ split CRLF text ∧ header_line line name value) ∧
     (∀ name value, headers !! name = Some value →
        ∃ line, line ∈ split CRLF text ∧ header_line line name value) ∧
     (∀ before line after name value,
        split CRLF text = before ++ line :: after →
        header_line line name value →
        (∀ line' value', line' ∈ after → ¬ header_line line' name value') →
        headers !! name = Some value)) ∧
  parse_headers crafted_headers
    = inr {[ lit "connection" := lit "close";
             lit "content-length" := lit "10" ]} ∧
  parse_headers (lit "HTTP/1.1 200 OK" ++ CRLF ++ crafted_headers)
    = inr {[ lit "connection" := lit "close";
             lit "content-length" := lit "10" ]}.
Proof.
  split_and!.
  - intros text. split; [apply join_split_n|]. by apply split_pieces_free.
  - intros headers line Hno. rewrite parse_line_add. unfold add_line.
    apply line_entry_None in Hno. by rewrite Hno.
  - intros headers line key value Hf. split.
    + apply contains_spec. destruct Hf as [-> _]. by eauto.
    + rewrite parse_line_add. unfold add_line, line_entry.
      apply cut_first_at in Hf. by rewrite Hf.
  - intros text. eexists. split; [apply parse_headers_foldl|]. split_and!.
    + intros name. split.
      * intros [value [Hin|Hline]%foldl_add_line_Some]; [done|].
        destruct Hline as (line & ? & ?). by eauto.
      * intros (line & value & Hin & Hline).
        by eapply foldl_add_line_is_Some.
    + intros name value [Hin|Hline]%foldl_add_line_Some; [done|]. done.
    + intros before line after name value -> Hline Hafter.
      by apply foldl_add_line_last.
  - by vm_compute.
  - by vm_compute.
Qed.

(** C7 (the code departs from it).  When the first [socket.socket] call
    goes through, the claim holds: the loop runs to its end, [results] is
    then the entries of the test cases whose exchange went through, in
    order, one each, and a test case whose exchange raised only has its
    error printed; a test case has an entry exactly when all its socket
    calls went through (and its request could be encoded).  But when [socket.socket] raises in the first
    iteration, [sock] is unassigned in the [finally] clause: [sock.close()]
    raises [UnboundLocalError], which leaves the loop.  The run does not
    continue to the next case, and [results] is never analysed. *)
Theorem probe_loop_outcomes host :
  (∀ net,
     socket_created (net 0%nat) = true →
     probe_loop net 0 (test_cases host) false []
       = (reported net 0 (test_cases host),
          inr (observed net 0 (test_cases host)))) ∧
  (∀ x test,
     (∃ obs, attempt x test = inr obs) ↔
     (∃ start_time data end_time, x = Received start_time data end_time) ∧
     (∃ payload, encode (request test) = inr payload)) ∧
  (∀ msg later,
     test_header_parsing host
       (λ i, match i with O => SocketFails msg | S j => later j end)
     = ([lit "Error during Both Headers: " ++ msg],
        inl unbound_sock)).
Proof.
  split_and!.
  - intros net Hs. apply probe_loop_results. by right.
  - apply attempt_inr_iff.
  - intros msg later. unfold test_header_parsing, test_cases.
    erewrite probe_loop_unbound by done. done.
Qed.

(** C8.  For a response text none of whose lines holds [": "], header
    extraction returns the empty map without raising, and the entry built
    from the response has ["Not specified"] in both header fields: the
    map has no entry for either name, and the default of the lookup
    supplies the text. *)
Theorem no_headers_defaults test start_time data end_time text payload :
  encode (request test) = inr payload →
  decode Ignore data = Some text →
  Forall (λ line, contains COLON_SP line = false) (split CRLF text) →
  parse_headers text = inr ∅ ∧
  attempt (Received start_time data end_time) test
    = inr {| test_name := name test;
             response_time := (end_time - start_time)%float;
             connection := lit "Not specified";
             content_length := lit "Not specified" |}.
Proof.
  intros Henc Hdec Hlines.
  assert (parse_headers text = inr ∅) as Hparse.
  { rewrite parse_headers_foldl. f_equal.
    generalize (∅ : gmap str str).
    induction Hlines as [|line lines Hline _ IH]; intros headers; [done|].
    simpl. unfold add_line at 2.
    apply line_entry_None in Hline. rewrite Hline. apply IH. }
  split; [done|].
  unfold attempt. rewrite Henc.
  cbn -[lit decode_ignore parse_headers].
  unfold decode_ignore. rewrite Hdec.
  cbn -[lit parse_headers]. rewrite Hparse. done.
Qed.

(** C9.  The rule compares the stored values after lower-casing only.
    When the two values are not ["close"] and ["keep-alive"] in lower
    case, and in particular when one of them begins or ends with white
    space, no warning is printed: the analysis prints the summaries and
    ends. *)
Theorem lowercase_only_comparison results both te :
  first_named (lit "Both Headers") results both →
  first_named (lit "TE Only") results te →
  ¬ (lower (connection both) = lit "close" ∧
     lower (connection te) = lit "keep-alive")
  ∨ outer_space (connection both)
  ∨ outer_space (connection te) →
  analyze_results results = (summaries results, inr tt) ∧
  ¬ finding_emitted (summaries results).
Proof.
  intros Hb Ht Hvalues. split; [|apply summaries_no_finding].
  rewrite (analyze_results_found results both te) by done.
  assert (¬ (lower (connection both) = lit "close" ∧
             lower (connection te) = lit "keep-alive")) as Hno.
  { destruct Hvalues as [Hno|[Hsp|Hsp]]; [done|..]; intros [Hcb Hct].
    - revert Hcb. eapply (lower_outer_space _ _ 99 101 (lit "los")); try done.
      all: unfold ascii_space; lia.
    - revert Hct.
      eapply (lower_outer_space _ _ 107 101 (lit "eep-aliv")); try done.
      all: unfold ascii_space; lia. }
  destruct (bool_decide (lower (connection both) = lit "close")) eqn:Eb;
    [destruct (bool_decide (lower (connection te) = lit "keep-alive")) eqn:Et|];
    cbn [andb]; try by rewrite app_nil_r.
  apply bool_decide_eq_true in Eb, Et. by destruct Hno.
Qed.

(** C10.  Header extraction does not stop at the blank line that ends
    the header section: a header line after a blank line of the response
    leaves an entry for its name in the map all the same.  So there is a
    response whose map has an entry for a name that no line before the
    blank line declares. *)
Theorem body_lines_extracted :
  (∀ text head body line name value,
     split CRLF text = head ++ [] :: body →
     line ∈ body →
     header_line line name value →
     ∃ headers,
       parse_headers text = inr headers ∧ is_Some (headers !! name)) ∧
  (∃ text head body headers name,
     split CRLF text = head ++ [] :: body ∧
     parse_headers text = inr headers ∧
     is_Some (headers !! name) ∧
     ∀ line value, line ∈ head → ¬ header_line line name value).
Proof.
  split.
  - intros text head body line name value Hsplit Hin Hline.
    eexists. split; [apply parse_headers_foldl|].
    eapply foldl_add_line_is_Some; [|done].
    rewrite Hsplit. apply elem_of_app. right. by right.
  - exists body_response,
           [lit "HTTP/1.1 200 OK"; lit "Content-Length: 13"],
           [lit "X-Injected: 1"; []],
           {[ lit "content-length" := lit "13"; lit "x-injected" := lit "1" ]},
           (lit "x-injected").
    split_and!; [by vm_compute|by vm_compute|by eexists; vm_compute|].
    intros line value Hin Hline%header_line_entry.
    repeat (apply elem_of_cons in Hin as [->|Hin];
            [by vm_compute in Hline|]).
    by apply elem_of_nil in Hin.
Qed.

End Claims.

(** ** The claims at concrete inputs *)

(** C1, at a results list that holds the entry of "Both Headers" only. *)
Lemma analyze_results_missing_raises_witness :
  ∃ out,
    @analyze_results ascii_only [both_mixed_case]
      = (out, inl (Exn StopIteration [])) ∧
    out = summaries [both_mixed_case] ∧
    ¬ finding_emitted out.
Proof.
  apply (@analyze_results_missing_raises ascii_only [both_mixed_case]).
  right. intros r Hr. apply list_elem_of_singleton in Hr as ->. discriminate.
Defined.

(** C2, as stated, fails for the values ["Close"] and ["KEEP-ALIVE"]: the
    warning is printed, and none of its lines holds either value as it was
    received. *)
Lemma warning_omits_received_values :
  @analyze_results ascii_only [both_mixed_case; te_mixed_case]
    = (summaries [both_mixed_case; te_mixed_case]
         ++ warning both_mixed_case te_mixed_case, inr tt) ∧
  finding_emitted (summaries [both_mixed_case; te_mixed_case]
                     ++ warning both_mixed_case te_mixed_case) ∧
  Forall (λ line, contains (connection both_mixed_case) line = false ∧
                  contains (connection te_mixed_case) line = false)
         (warning both_mixed_case te_mixed_case).
Proof.
  split_and!.
  - by vm_compute.
  - apply elem_of_app. right. by left.
  - repeat constructor; by vm_compute.
Qed.

(** C2, at the values ["Close"] and ["KEEP-ALIVE"]. *)
Lemma inconsistency_rule_witness :
  ∃ out,
    @analyze_results ascii_only [both_mixed_case; te_mixed_case] = (out, inr tt) ∧
    (finding_emitted out ↔
       @lower ascii_only (connection both_mixed_case) = lit "close" ∧
       @lower ascii_only (connection te_mixed_case) = lit "keep-alive") ∧
    (finding_emitted out →
       out = summaries [both_mixed_case; te_mixed_case] ++
         [ [LF] ++ lit "[!] Potential header parsing inconsistency detected:";
           lit "- Server returns 'Connection: "
             ++ @lower ascii_only (connection both_mixed_case)
             ++ lit "' with both headers";
           lit "- Server returns 'Connection: "
             ++ @lower ascii_only (connection te_mixed_case)
             ++ lit "' with TE only";
           lit "- Response timing differs by: "
             ++ format_2f (abs (response_time both_mixed_case
                                - response_time te_mixed_case))
             ++ lit "s" ]) ∧
    (¬ finding_emitted out →
       out = summaries [both_mixed_case; te_mixed_case]).
Proof.
  apply (@inconsistency_rule ascii_only
           [both_mixed_case; te_mixed_case] both_mixed_case te_mixed_case).
  - exists [], [te_mixed_case]. split_and!; [done..|].
    intros r Hr. by apply elem_of_nil in Hr.
  - exists [both_mixed_case], []. split_and!; [done..|].
    intros r Hr. apply list_elem_of_singleton in Hr as ->. discriminate.
Defined.

(** C3, as stated, fails for a response with two [Connection] lines: the
    first line bearing the name has the value ["close"], no line before it
    bears the name, and the name is mapped to the value of the second
    line. *)
Lemma first_duplicate_overwritten :
  split CRLF duplicate_response
    = [ lit "HTTP/1.1 200 OK"; lit "Connection: close";
        lit "Connection: keep-alive"; []; [] ] ∧
  @header_line ascii_only (lit "Connection: close") (lit "connection") (lit "close") ∧
  (∀ value,
     ¬ @header_line ascii_only (lit "HTTP/1.1 200 OK") (lit "connection") value) ∧
  ∃ headers,
    @parse_headers ascii_only duplicate_response = inr headers ∧
    headers !! lit "connection" = Some (lit "keep-alive") ∧
    headers !! lit "connection" ≠ Some (lit "close").
Proof.
  split_and!.
  - by vm_compute.
  - by apply header_line_entry.
  - intros value Hline%header_line_entry. by vm_compute in Hline.
  - exists {[ lit "connection" := lit "keep-alive" ]}.
    split_and!; by vm_compute.
Qed.

(** C3 as amended, at the response with two [Connection] lines. *)
Lemma last_duplicate_wins_witness :
  ∃ headers,
    @parse_headers ascii_only duplicate_response = inr headers ∧
    headers !! lit "connection" = Some (lit "keep-alive").
Proof.
  apply (@last_duplicate_wins ascii_only duplicate_response
           [lit "HTTP/1.1 200 OK"; lit "Connection: close"]
           (lit "Connection: keep-alive") [[]; []]).
  - by vm_compute.
  - by apply header_line_entry.
  - intros line value Hin Hline%header_line_entry.
    repeat (apply elem_of_cons in Hin as [->|Hin]; [by vm_compute in Hline|]).
    by apply elem_of_nil in Hin.
Defined.

(** C4, as stated, fails for the bytes [b"a\xffb"]: the byte [0xFF] is
    dropped, and the text holds no replacement character. *)
Lemma stray_byte_not_replaced :
  decode_ignore stray_response = inr (lit "ab") ∧
  decode Replace stray_response = Some [97; REPLACEMENT; 98] ∧
  REPLACEMENT ∉ lit "ab".
Proof.
  split_and!; [done..|].
  intros Hin. by repeat (apply elem_of_cons in Hin as [?|Hin]; [done|]);
    apply elem_of_nil in Hin.
Qed.

(** C4 as amended, at the bytes [b"a\xffb"]. *)
Lemma undecodable_bytes_dropped_witness :
  decode_ignore (ascii_bytes (lit "a") ++ "255"%byte :: ascii_bytes (lit "b"))
    = inr (lit "a" ++ lit "b") ∧
  decode Replace (ascii_bytes (lit "a") ++ "255"%byte :: ascii_bytes (lit "b"))
    = Some (lit "a" ++ REPLACEMENT :: lit "b").
Proof.
  apply (proj2 undecodable_bytes_dropped (lit "a") (lit "b")).
  - done.
  - done.
  - right. by vm_compute.
Defined.

(** C7, at the server whose second answer does not arrive: the loop ends,
    with the first entry alone and the error of the second test case. *)
Lemma probe_loop_outcomes_witness :
  @probe_loop ascii_only timeout_server 0 (test_cases (lit "example.com")) false []
    = (@reported ascii_only timeout_server 0 (test_cases (lit "example.com")),
       inr (@observed ascii_only timeout_server 0 (test_cases (lit "example.com")))).
Proof.
  apply (proj1 (@probe_loop_outcomes ascii_only (lit "example.com"))).
  done.
Defined.

(** C8, at the empty response. *)
Lemma no_headers_defaults_witness :
  @parse_headers ascii_only [] = inr ∅ ∧
  @attempt ascii_only (Received 1 [] 1.5) example_case
    = inr {| test_name := lit "TE Only";
             response_time := (1.5 - 1)%float;
             connection := lit "Not specified";
             content_length := lit "Not specified" |}.
Proof.
  eapply (@no_headers_defaults ascii_only example_case 1%float [] 1.5%float []).
  - by vm_compute.
  - done.
  - by repeat constructor.
Defined.

(** C9, at a value with a space in front. *)
Lemma lowercase_only_comparison_witness :
  @analyze_results ascii_only [both_padded; te_plain]
    = (summaries [both_padded; te_plain], inr tt) ∧
  ¬ finding_emitted (summaries [both_padded; te_plain]).
Proof.
  apply (@lowercase_only_comparison ascii_only
           [both_padded; te_plain] both_padded te_plain).
  - exists [], [te_plain]. split_and!; [done..|].
    intros r Hr. by apply elem_of_nil in Hr.
  - exists [both_padded], []. split_and!; [done..|].
    intros r Hr. apply list_elem_of_singleton in Hr as ->. discriminate.
  - right. left. exists 32, (lit "close"). split; [by left|by left].
Defined.

(** ** Scenarios of the specification *)

Example test_cases_example :
  test_cases (lit "example.com") !! 1%nat = Some example_case.
Proof. reflexivity. Qed.

(** The requests for the host [example.com] as bytes: the first is the
    second with the [Content-Length] line after the [Host] line. *)
Example request_bytes_example :
  encode <$> (request <$> test_cases (lit "example.com"))
    = [ inr (ascii_bytes (lit "POST / HTTP/1.1" ++ CRLF
                            ++ lit "Host: example.com" ++ CRLF
                            ++ lit "Content-Length: 5" ++ CRLF
                            ++ lit "Transfer-Encoding: chunked" ++ CRLF
                            ++ lit "Connection: keep-alive" ++ CRLF ++ CRLF
                            ++ lit "0" ++ CRLF ++ CRLF));
        inr (ascii_bytes (lit "POST / HTTP/1.1" ++ CRLF
                            ++ lit "Host: example.com" ++ CRLF
                            ++ lit "Transfer-Encoding: chunked" ++ CRLF
                            ++ lit "Connection: keep-alive" ++ CRLF ++ CRLF
                            ++ lit "0" ++ CRLF ++ CRLF)) ].
Proof. by vm_compute. Qed.

(** The detection scenario: the times [0.50] and [0.20] are reported as a
    difference of [0.30]. *)
Example detection_scenario :
  last (warning (Build_Observation (lit "Both Headers") 0.5 (lit "close") NOT_SPECIFIED)
                (Build_Observation (lit "TE Only") 0.2 (lit "keep-alive") NOT_SPECIFIED))
    = Some (lit "- Response timing differs by: 0.30s").
Proof. by vm_compute. Qed.

(** The non-detection scenario: both entries report [keep-alive]. *)
Example non_detection_scenario :
  @analyze_results ascii_only
    [ Build_Observation (lit "Both Headers") 0.5 (lit "keep-alive") NOT_SPECIFIED;
      te_plain ]
    = (summaries
         [ Build_Observation (lit "Both Headers") 0.5 (lit "keep-alive") NOT_SPECIFIED;
           te_plain ],
       inr tt).
Proof. by vm_compute. Qed.

(** The reverse pattern is not flagged. *)
Example reverse_pattern_scenario :
  @analyze_results ascii_only
    [ Build_Observation (lit "Both Headers") 0.5 (lit "keep-alive") NOT_SPECIFIED;
      Build_Observation (lit "TE Only") 0.2 (lit "close") NOT_SPECIFIED ]
    = (summaries
         [ Build_Observation (lit "Both Headers") 0.5 (lit "keep-alive") NOT_SPECIFIED;
           Build_Observation (lit "TE Only") 0.2 (lit "close") NOT_SPECIFIED ],
       inr tt).
Proof. by vm_compute. Qed.

(** A whole run against the server that closes the connection on the first
    request: two summaries and the warning. *)
Example inconsistent_server_run :
  @test_header_parsing ascii_only (lit "example.com") inconsistent_server
    = ([ [LF] ++ lit "Test: Both Headers";
         lit "Response time: 0.50s";
         lit "Connection header: close";
         lit "Content-Length header: Not specified";
         [LF] ++ lit "Test: TE Only";
         lit "Response time: 0.25s";
         lit "Connection header: keep-alive";
         lit "Content-Length header: 0";
         [LF] ++ lit "[!] Potential header parsing inconsistency detected:";
         lit "- Server returns 'Connection: close' with both headers";
         lit "- Server returns 'Connection: keep-alive' with TE only";
         lit "- Response timing differs by: 0.25s" ],
       inr tt).
Proof. by vm_compute. Qed.

(** The same run with a second space after the colon: the value is kept
    with the space, and the rule does not fire. *)
Example padding_server_run :
  @test_header_parsing ascii_only (lit "example.com") padding_server
    = ([ [LF] ++ lit "Test: Both Headers";
         lit "Response time: 0.50s";
         lit "Connection header:  close";
         lit "Content-Length header: Not specified";
         [LF] ++ lit "Test: TE Only";
         lit "Response time: 0.25s";
         lit "Connection header: keep-alive";
         lit "Content-Length header: 0" ],
       inr tt).
Proof. by vm_compute. Qed.

(** The missing-case scenario: the second probe times out.  The error and
    the summary of the first probe are printed, and the run ends with
    [StopIteration]. *)
Example timeout_server_run :
  @test_header_parsing ascii_only (lit "example.com") timeout_server
    = ([ lit "Error during TE Only: timed out";
         [LF] ++ lit "Test: Both Headers";
         lit "Response time: 0.50s";
         lit "Connection header: close";
         lit "Content-Length header: Not specified" ],
       inl (Exn StopIteration [])).
Proof. by vm_compute. Qed.

(** What the loop leaves for the analysis in that scenario. *)
Example timeout_server_results :
  @observed ascii_only timeout_server 0 (test_cases (lit "example.com"))
    = [ {| test_name := lit "Both Headers";
           response_time := 0.5%float;
           connection := lit "close";
           content_length := lit "Not specified" |} ] ∧
  @reported ascii_only timeout_server 0 (test_cases (lit "example.com"))
    = [ lit "Error during TE Only: timed out" ].
Proof. by vm_compute. Qed.

(** No socket can be opened: the run ends in the first [finally]. *)
Example no_sockets_run :
  @test_header_parsing ascii_only (lit "example.com") no_sockets
    = ([ lit "Error during Both Headers: [Errno 24] Too many open files" ],
       inl unbound_sock).
Proof. by vm_compute. Qed.

(** ** Further properties: UTF-8 *)

Lemma byte_of_to_N b : byte_of_N (Byte.to_N b) = b.
Proof. unfold byte_of_N. by rewrite Byte.of_to_N. Qed.

Lemma to_N_lt b : Byte.to_N b < 256.
Proof. pose proof (Byte.to_N_bounded b). lia. Qed.

(** One step of the decoding loop on a non-empty input: it reads the
    well-formed encoding of an encodable code point, or skips an
    undecodable range of at least one byte. *)
Lemma utf8_pieces_step b1 r1 :
  (∃ c rest,
     utf8_pieces (b1 :: r1) = Decoded c :: utf8_pieces rest ∧
     encodable c ∧ b1 :: r1 = utf8_char c ++ rest) ∨
  (∃ rest,
     utf8_pieces (b1 :: r1) = Undecodable :: utf8_pieces rest ∧
     (length rest < length (b1 :: r1))%nat).
Proof.
  pose proof (to_N_lt b1) as Hb1.
  cbn [utf8_pieces]. unfold is_continuation.
  destruct (Byte.to_N b1 <? 128) eqn:H1.
  { left. exists (Byte.to_N b1), r1. apply N.ltb_lt in H1.
    split_and!; [done| |].
    - split; [|lia]. unfold is_surrogate.
      rewrite (proj2 (N.leb_gt 55296 _)) by lia. done.
    - unfold utf8_char. rewrite (proj2 (N.ltb_lt _ _) H1).
      by rewrite byte_of_to_N. }
  destruct (Byte.to_N b1 <? 194) eqn:H2; [undecodable r1|].
  destruct (Byte.to_N b1 <? 224) eqn:H3.
  { destruct r1 as [|b2 r2]; [undecodable (@nil byte)|].
    pose proof (to_N_lt b2) as Hb2.
    destruct (128 <=? Byte.to_N b2) eqn:C1; [|undecodable (b2 :: r2)].
    destruct (Byte.to_N b2 <? 192) eqn:C2; [|undecodable (b2 :: r2)].
    cbn [andb]. left. eexists _, r2. split; [reflexivity|].
    rewrite ?N.ltb_lt, ?N.ltb_ge, ?N.leb_le in *.
    split.
    - split; [|lia]. unfold is_surrogate.
      rewrite (proj2 (N.leb_gt 55296 _)) by lia. done.
    - unfold utf8_char. repeat decide_test.
      cbn [app]. f_equal; [|f_equal].
      + rewrite <- (byte_of_to_N b1) at 1. f_equal. div_lia.
      + rewrite <- (byte_of_to_N b2) at 1. f_equal. div_lia. }
  destruct (Byte.to_N b1 <? 240) eqn:H4.
  { destruct r1 as [|b2 r2]; [undecodable (@nil byte)|].
    pose proof (to_N_lt b2) as Hb2.
    destruct (128 <=? Byte.to_N b2) eqn:C1; [|undecodable (b2 :: r2)].
    destruct (Byte.to_N b2 <? 192) eqn:C2; [|undecodable (b2 :: r2)].
    cbn [andb negb orb].
    destruct (if Byte.to_N b2 <? 160 then Byte.to_N b1 =? 224
              else Byte.to_N b1 =? 237) eqn:C3; [undecodable (b2 :: r2)|].
    destruct r2 as [|b3 r3]; [undecodable (@nil byte)|].
    pose proof (to_N_lt b3) as Hb3.
    destruct (128 <=? Byte.to_N b3) eqn:D1; [|undecodable (b3 :: r3)].
    destruct (Byte.to_N b3 <? 192) eqn:D2; [|undecodable (b3 :: r3)].
    cbn [andb]. left. eexists _, r3. split; [reflexivity|].
    destruct (Byte.to_N b2 <? 160) eqn:C4;
      rewrite ?N.ltb_lt, ?N.ltb_ge, ?N.leb_le, ?N.eqb_neq in *.
    all: split;
      [ split; [|lia]; unfold is_surrogate; apply andb_false_iff;
        rewrite !N.leb_gt; lia
      | unfold utf8_char; repeat decide_test; cbn [app];
        rewrite <- (byte_of_to_N b1) at 1; rewrite <- (byte_of_to_N b2) at 1;
        rewrite <- (byte_of_to_N b3) at 1;
        repeat f_equal; div_lia ]. }
  destruct (Byte.to_N b1 <? 245) eqn:H5; [|undecodable r1].
  destruct r1 as [|b2 r2]; [undecodable (@nil byte)|].
  pose proof (to_N_lt b2) as Hb2.
  destruct (128 <=? Byte.to_N b2) eqn:C1; [|undecodable (b2 :: r2)].
  destruct (Byte.to_N b2 <? 192) eqn:C2; [|undecodable (b2 :: r2)].
  cbn [andb negb orb].
  destruct (if Byte.to_N b2 <? 144 then Byte.to_N b1 =? 240
            else Byte.to_N b1 =? 244) eqn:C3; [undecodable (b2 :: r2)|].
  destruct r2 as [|b3 r3]; [undecodable (@nil byte)|].
  pose proof (to_N_lt b3) as Hb3.
  destruct (128 <=? Byte.to_N b3) eqn:D1; [|undecodable (b3 :: r3)].
  destruct (Byte.to_N b3 <? 192) eqn:D2; [|undecodable (b3 :: r3)].
  cbn [andb negb].
  destruct r3 as [|b4 r4]; [undecodable (@nil byte)|].
  pose proof (to_N_lt b4) as Hb4.
  destruct (128 <=? Byte.to_N b4) eqn:E1; [|undecodable (b4 :: r4)].
  destruct (Byte.to_N b4 <? 192) eqn:E2; [|undecodable (b4 :: r4)].
  cbn [andb]. left. eexists _, r4. split; [reflexivity|].
  destruct (Byte.to_N b2 <? 144) eqn:C4;
    rewrite ?N.ltb_lt, ?N.ltb_ge, ?N.leb_le, ?N.eqb_neq in *.
  all: split;
    [ split; [|lia]; unfold is_surrogate; apply andb_false_iff;
      rewrite !N.leb_gt; lia
    | unfold utf8_char; repeat decide_test; cbn [app];
      rewrite <- (byte_of_to_N b1) at 1; rewrite <- (byte_of_to_N b2) at 1;
      rewrite <- (byte_of_to_N b3) at 1; rewrite <- (byte_of_to_N b4) at 1;
      repeat f_equal; div_lia ].
Qed.

Lemma utf8_char_nonempty c : utf8_char c ≠ [].
Proof. unfold utf8_char. by repeat case_match. Qed.

(** What the decoding loop yields for any input: encodable code points, no
    more pieces than bytes, and, when no range is undecodable, exactly the
    bytes that encode the code points. *)
Lemma utf8_pieces_sound bs :
  Forall encodable (decoded_chars (utf8_pieces bs)) ∧
  (length (utf8_pieces bs) ≤ length bs)%nat ∧
  (Undecodable ∉ utf8_pieces bs →
   concat (map utf8_char (decoded_chars (utf8_pieces bs))) = bs).
Proof.
  remember (length bs) as n eqn:Hn. revert bs Hn.
  induction n as [n IH] using lt_wf_ind. intros [|b1 r1] Hn.
  { simpl. split_and!; [constructor|lia|done]. }
  destruct (utf8_pieces_step b1 r1)
    as [(c & rest & Hp & Hc & Hbs)|(rest & Hp & Hlen)]; rewrite Hp.
  - assert (length rest < n)%nat as Hlt.
    { rewrite Hn, Hbs, length_app.
      pose proof (utf8_char_nonempty c). destruct (utf8_char c); [done|].
      simpl. lia. }
    destruct (IH _ Hlt rest eq_refl) as (IH1 & IH2 & IH3). split_and!.
    + by constructor.
    + simpl in *. lia.
    + intros Hno.
      change (decoded_chars (Decoded c :: utf8_pieces rest))
        with (c :: decoded_chars (utf8_pieces rest)).
      cbn [map concat]. rewrite Hbs. f_equal.
      apply IH3. intros Hin. apply Hno. by right.
  - assert (length rest < n)%nat as Hlt by (by rewrite Hn).
    destruct (IH _ Hlt rest eq_refl) as (IH1 & IH2 & IH3). split_and!.
    + done.
    + simpl in *. lia.
    + intros Hno. exfalso. apply Hno. by left.
Qed.

Lemma length_decoded_chars ps : (length (decoded_chars ps) ≤ length ps)%nat.
Proof.
  induction ps as [|[c|] ps IH]; simpl; [done|..];
    fold (decoded_chars ps); lia.
Qed.

(** X1.  Encoding and decoding are a round trip: the bytes [encode] gives
    for a text decode to that text under every error handler, so nothing
    of a well-formed response is dropped or replaced. *)
Theorem encoded_text_decodes s data :
  encode s = inr data →
  decode_ignore data = inr s ∧
  decode Strict data = Some s ∧
  decode Replace data = Some s.
Proof.
  intros [Hs ->]%encode_inr.
  pose proof (utf8_pieces_encoded s [] Hs) as Hp.
  rewrite !app_nil_r in Hp. unfold decode_ignore, decode. rewrite Hp.
  rewrite handle_ignore, handle_replace, handle_strict.
  rewrite decoded_chars_Decoded, replaced_chars_Decoded.
  split_and!; [done| |done].
  rewrite decide_False; [done|].
  intros (c & ? & _)%list_elem_of_fmap. done.
Qed.

(** X2.  Whatever bytes [recv] returned, the decoded response holds only
    code points that can be encoded again (no surrogate, none above
    U+10FFFF), and no more code points than there were bytes. *)
Theorem decoded_text_encodable data text :
  decode_ignore data = inr text →
  (∃ again, encode text = inr again) ∧
  (length text ≤ length data)%nat.
Proof.
  rewrite decode_ignore_inr. intros [= <-].
  destruct (utf8_pieces_sound data) as (Hvalid & Hlen & _). split.
  - eexists. by apply encode_inr.
  - pose proof (length_decoded_chars (utf8_pieces data)). lia.
Qed.

(** X3.  The round trip the other way: bytes that decode strictly, that
    is without an undecodable range, are exactly the encoding of the text
    they decode to, and the [ignore] handler reads them as the same
    text. *)
Theorem well_formed_bytes_round_trip data text :
  decode Strict data = Some text →
  encode text = inr data ∧ decode_ignore data = inr text.
Proof.
  unfold decode. rewrite handle_strict.
  destruct (decide (Undecodable ∈ utf8_pieces data)) as [|Hno]; [done|].
  intros [= <-].
  destruct (utf8_pieces_sound data) as (Hvalid & _ & Hback). split.
  - apply encode_inr. split; [done|]. symmetry. by apply Hback.
  - apply decode_ignore_inr.
Qed.

(** ** Further properties: lines *)

Lemma split_without sep s : contains sep s = false → split sep s = [s].
Proof.
  intros Hc%contains_false_cut. unfold split.
  destruct (length s); cbn [split_n]; [done|]. by rewrite Hc.
Qed.

Lemma contains_cons_false sep c s :
  contains sep (c :: s) = false →
  startswith sep (c :: s) = false ∧ contains sep s = false.
Proof. cbn [contains]. by intros [? ?]%orb_false_elim. Qed.

(** An occurrence of a separator of two different characters cannot begin
    in a text that holds none and end in the separator that follows it. *)
Lemma cut_before_sep c1 c2 x y :
  c1 ≠ c2 → contains [c1; c2] x = false →
  cut [c1; c2] (x ++ [c1; c2] ++ y) = Some (x, y).
Proof.
  intros Hne. induction x as [|c x IH]; intros Hx.
  - rewrite app_nil_l, cut_startswith by apply startswith_app. done.
  - apply contains_cons_false in Hx as [Hs Hx].
    rewrite <- app_comm_cons. cbn [cut].
    assert (startswith [c1; c2] (c :: x ++ [c1; c2] ++ y) = false) as ->.
    { cbn [startswith] in *. destruct (bool_decide (c1 = c)); [|done].
      destruct x as [|d x]; simpl in *.
      - rewrite bool_decide_eq_false_2 by done. done.
      - destruct (bool_decide (c2 = d)); done. }
    by rewrite IH.
Qed.

Lemma split_cons_sep c1 c2 x y :
  c1 ≠ c2 → contains [c1; c2] x = false →
  split [c1; c2] (x ++ [c1; c2] ++ y) = x :: split [c1; c2] y.
Proof.
  intros Hne Hx. unfold split at 1.
  assert (length (x ++ [c1; c2] ++ y) = S (length x + 1 + length y)) as ->
    by (rewrite !length_app; simpl; lia).
  change (split_n (S ?n) ?sep ?s)
    with (match cut sep s with
          | None => [s]
          | Some (a, b) => a :: split_n n sep b
          end).
  rewrite cut_before_sep by done. f_equal.
  apply split_n_enough; [done|lia].
Qed.

Lemma contains_app_false c1 c2 a b :
  contains [c1; c2] a = false → contains [c1; c2] b = false →
  last a ≠ Some c1 ∨ head b ≠ Some c2 →
  contains [c1; c2] (a ++ b) = false.
Proof.
  intros Ha Hb Hjoin. induction a as [|c a IH]; [done|].
  apply contains_cons_false in Ha as [Hs Ha].
  rewrite <- app_comm_cons. cbn [contains]. apply orb_false_intro.
  - destruct a as [|d a].
    + cbn [startswith app] in *. destruct (bool_decide (c1 = c)) eqn:Hc; [|done].
      apply bool_decide_eq_true in Hc as <-. cbn [andb].
      destruct b as [|d b]; [done|].
      destruct Hjoin as [Hj|Hj]; [done|].
      rewrite bool_decide_eq_false_2; [done|]. intros <-. done.
    + exact Hs.
  - apply IH; [done|]. destruct Hjoin as [Hj|Hj]; [|by right].
    left. destruct a; [done|]. done.
Qed.

(** X4.  Splitting undoes joining: lines that hold no CRLF, joined by
    CRLF into a response, are split back into exactly those lines, an
    empty line included. *)
Theorem split_join_lines lines :
  lines ≠ [] →
  Forall (λ line, contains CRLF line = false) lines →
  split CRLF (join CRLF lines) = lines.
Proof.
  intros Hne Hall. induction Hall as [|line lines Hline Hall IH]; [done|].
  destruct lines as [|line' lines].
  - by apply split_without.
  - rewrite join_cons by done.
    unfold CRLF at 1 3. rewrite split_cons_sep by done.
    f_equal. by apply IH.
Qed.

(** X5.  A response without any CRLF, such as one whose lines end in a
    bare LF, is read as a single line: the map is empty when the text holds
    no [": "], and otherwise has one entry, whose name is all the text
    before the first [": "], in lower case. *)
Theorem bare_response_single_line `{UnicodeData} text :
  contains CRLF text = false →
  ∃ headers,
    parse_headers text = inr headers ∧
    (contains COLON_SP text = false → headers = ∅) ∧
    (∀ key value,
       first_at COLON_SP text key value → headers = {[ lower key := value ]}).
Proof.
  intros Hno. eexists. split; [apply parse_headers_foldl|].
  rewrite split_without by done. cbn [foldl]. unfold add_line. split.
  - intros Hc%line_entry_None. by rewrite Hc.
  - intros key value Hf%cut_first_at. unfold line_entry. by rewrite Hf.
Qed.

(** X6.  For a host that holds no CRLF, the two requests consist of
    exactly these lines: the request line, the [Host] line, the framing
    headers, the blank line that ends the headers, and the last chunk [0]
    with its blank line. *)
Theorem request_lines host :
  contains CRLF host = false →
  (λ test, split CRLF (request test)) <$> test_cases host =
    [ [ lit "POST / HTTP/1.1"; lit "Host: " ++ host;
        lit "Content-Length: 5"; lit "Transfer-Encoding: chunked";
        lit "Connection: keep-alive"; []; lit "0"; []; [] ];
      [ lit "POST / HTTP/1.1"; lit "Host: " ++ host;
        lit "Transfer-Encoding: chunked";
        lit "Connection: keep-alive"; []; lit "0"; []; [] ] ].
Proof.
  intros Hhost.
  assert (contains CRLF (lit "Host: " ++ host) = false) as Hline.
  { apply contains_app_false; [done..|]. left. by vm_compute. }
  unfold test_cases. cbn [fmap list_fmap request]. f_equal; [|f_equal].
  - rewrite <- (split_join_lines
      [ lit "POST / HTTP/1.1"; lit "Host: " ++ host;
        lit "Content-Length: 5"; lit "Transfer-Encoding: chunked";
        lit "Connection: keep-alive"; []; lit "0"; []; [] ]).
    + f_equal. cbn [join]. by rewrite <- !app_assoc.
    + done.
    + repeat constructor; done.
  - rewrite <- (split_join_lines
      [ lit "POST / HTTP/1.1"; lit "Host: " ++ host;
        lit "Transfer-Encoding: chunked";
        lit "Connection: keep-alive"; []; lit "0"; []; [] ]).
    + f_equal. cbn [join]. by rewrite <- !app_assoc.
    + done.
    + repeat constructor; done.
Qed.

(** ** Further properties: header names *)

Lemma lower_from_ascii `{UnicodeData} pre s :
  ascii_text s → lower_from pre s = map ascii_lower s.
Proof.
  intros Hs. revert pre. induction Hs as [|c s Hc _ IH]; intros pre; [done|].
  cbn [lower_from map]. apply N.ltb_lt in Hc as ->. by rewrite IH.
Qed.

Lemma lower_ascii `{UnicodeData} s : ascii_text s → lower s = map ascii_lower s.
Proof. apply lower_from_ascii. Qed.

(** X7.  Header names are matched without regard to the case of ASCII
    letters: of two header lines whose ASCII names differ in letter case
    only, the second overwrites the entry of the first, and the entry is
    found under the name in lower case. *)
Theorem header_names_ignore_case `{UnicodeData}
    headers line1 key1 value1 line2 key2 value2 :
  first_at COLON_SP line1 key1 value1 →
  first_at COLON_SP line2 key2 value2 →
  ascii_text key1 → ascii_text key2 →
  map ascii_lower key1 = map ascii_lower key2 →
  ∃ headers',
    parse_lines headers [line1; line2] = inr headers' ∧
    headers' = <[map ascii_lower key2 := value2]> headers ∧
    headers' !! map ascii_lower key1 = Some value2.
Proof.
  intros H1%cut_first_at H2%cut_first_at Ha1 Ha2 Heq.
  eexists. split; [apply parse_lines_foldl|].
  cbn [foldl]. unfold add_line, line_entry. rewrite H1, H2.
  rewrite !lower_ascii by done. rewrite Heq, insert_insert_eq.
  split; [done|]. apply lookup_insert_eq.
Qed.

(** ** Further properties: times as text *)

Lemma uint_digits_digit d : Forall digit (uint_digits d).
Proof.
  induction d; cbn [uint_digits]; constructor; try done; unfold digit; lia.
Qed.

Lemma uint_digits_nonempty d : d ≠ Decimal.Nil → uint_digits d ≠ [].
Proof. by destruct d. Qed.

Lemma str_of_N_digits n : str_of_N n ≠ [] ∧ Forall digit (str_of_N n).
Proof.
  split; [|apply uint_digits_digit]. unfold str_of_N.
  apply uint_digits_nonempty. destruct n as [|p]; [done|].
  apply Unsigned.to_uint_nonnil.
Qed.

Lemma fixed2_shape h :
  ∃ whole d1 d2,
    fixed2 h = whole ++ [46; d1; d2] ∧
    whole ≠ [] ∧ Forall digit whole ∧ digit d1 ∧ digit d2.
Proof.
  unfold fixed2. eexists _, _, _. split; [reflexivity|].
  destruct (str_of_N_digits (h / 100)) as [Hne Hd].
  split_and!; [done..| |]; unfold digit; div_lia.
Qed.

(** X8.  The response time of a summary is printed as [nan], as [inf]
    with or without a minus sign, or as an optional minus sign, one or
    more digits, a point and exactly two digits. *)
Theorem response_time_text r :
  ∃ v,
    summary r !! 1%nat = Some (lit "Response time: " ++ v ++ lit "s") ∧
    (v = lit "nan" ∨
     ∃ sign, (sign = [] ∨ sign = [45]) ∧
       (v = sign ++ lit "inf" ∨
        ∃ whole d1 d2,
          v = sign ++ whole ++ [46; d1; d2] ∧
          whole ≠ [] ∧ Forall digit whole ∧ digit d1 ∧ digit d2)).
Proof.
  exists (format_2f (response_time r)). split; [done|].
  unfold format_2f. destruct (Prim2SF (response_time r)) as [neg|neg| |neg m e].
  - right. exists (sign_text neg). split; [by destruct neg; auto|].
    right. exists [48], 48, 48.
    split_and!;
      first [ done | apply Forall_singleton; unfold digit; lia
            | unfold digit; lia ].
  - right. exists (sign_text neg). split; [by destruct neg; auto|]. by left.
  - by left.
  - right. exists (sign_text neg). split; [by destruct neg; auto|]. right.
    destruct (fixed2_shape
                match e with
                | 0%Z => N.pos m * 100
                | Z.pos p => N.pos m * 2 ^ N.pos p * 100
                | Z.neg p => round_half_even (N.pos m * 100) (2 ^ N.pos p)
                end) as (whole & d1 & d2 & -> & ?).
    by exists whole, d1, d2.
Qed.

(** X9.  The timing difference of the warning never carries a minus
    sign, whatever the two response times are: it is the text of an
    absolute value. *)
Theorem timing_difference_unsigned both te :
  ∃ v,
    last (warning both te)
      = Some (lit "- Response timing differs by: " ++ v ++ lit "s") ∧
    head v ≠ Some 45.
Proof.
  exists (format_2f (abs (response_time both - response_time te))).
  split; [done|].
  unfold format_2f. rewrite abs_spec.
  destruct (Prim2SF (response_time both - response_time te))
    as [neg|neg| |neg m e]; cbn [SFabs sign_text app]; try done.
  destruct (fixed2_shape
              match e with
              | 0%Z => N.pos m * 100
              | Z.pos p => N.pos m * 2 ^ N.pos p * 100
              | Z.neg p => round_half_even (N.pos m * 100) (2 ^ N.pos p)
              end) as (whole & d1 & d2 & -> & Hne & Hd & _).
  destruct whole as [|c whole]; [done|].
  apply Forall_cons in Hd as [[Hc _] _]. intros [= ->]. lia.
Qed.

(** ** Further properties: the probe loop and whole runs *)

Section MoreRuns.
Context `{UnicodeData}.

Lemma observed_reported_length net i tests :
  (length (observed net i tests) + length (reported net i tests)
   = length tests)%nat.
Proof.
  revert i. induction tests as [|test tests IH]; intros i; [done|].
  cbn [observed reported]. specialize (IH (S i)).
  destruct (attempt (net i) test); simpl; lia.
Qed.

Lemma observed_names net i tests :
  map test_name (observed net i tests) `sublist_of` map name tests.
Proof.
  revert i. induction tests as [|test tests IH]; intros i; [done|].
  cbn [observed map]. destruct (attempt (net i) test) as [e|obs] eqn:Ho.
  - by apply sublist_cons.
  - cbn [map]. rewrite (attempt_test_name _ _ _ Ho). by apply sublist_skip.
Qed.

(** X10.  When the first [socket.socket] call goes through, every test
    case is accounted for once: by its entry in [results] or by its error
    line, never both; and the names of the entries follow the order of the
    test cases. *)
Theorem probe_loop_accounting net tests :
  socket_created (net 0%nat) = true →
  ∃ out results,
    probe_loop net 0 tests false [] = (out, inr results) ∧
    (length results + length out = length tests)%nat ∧
    map test_name results `sublist_of` map name tests.
Proof.
  intros Hs. eexists _, _. split; [apply probe_loop_results; by right|].
  split; [apply observed_reported_length|apply observed_names].
Qed.

Lemma ascii_text_encodable s : ascii_text s → Forall encodable s.
Proof.
  intros Hs. eapply Forall_impl; [exact Hs|]. intros c Hc. simpl in Hc.
  split; [|lia].
  unfold is_surrogate. rewrite (proj2 (N.leb_gt 55296 c)) by lia. done.
Qed.

(** Both requests can be encoded when the host can. *)
Lemma requests_encodable host :
  Forall encodable host →
  Forall (λ test, ∃ payload, encode (request test) = inr payload)
         (test_cases host).
Proof.
  intros Hhost. unfold test_cases.
  constructor; [|constructor; [|constructor]].
  all: cbn [request]; eexists; apply (proj2 (encode_inr _ _));
    (split; [|done]); rewrite !Forall_app; split_and!;
    first [ done
          | apply ascii_text_encodable; vm_compute; by repeat constructor ].
Qed.

(** The entry of a test case whose exchange went through. *)
Lemma attempt_received start_time data end_time test payload :
  encode (request test) = inr payload →
  ∃ headers,
    parse_headers (decoded_chars (utf8_pieces data)) = inr headers ∧
    attempt (Received start_time data end_time) test
      = inr {| test_name := name test;
               response_time := (end_time - start_time)%float;
               connection :=
                 default (lit "Not specified") (headers !! lit "connection");
               content_length :=
                 default (lit "Not specified")
                         (headers !! lit "content-length") |}.
Proof.
  intros He. eexists. split; [apply parse_headers_foldl|].
  unfold attempt. rewrite He.
  cbn -[lit decode_ignore parse_headers].
  rewrite decode_ignore_inr. cbn -[lit parse_headers].
  by rewrite parse_headers_foldl.
Qed.

(** The run when both test cases have their entry. *)
Lemma run_with_both_entries host net both te o0 o1 :
  test_cases host = [both; te] →
  attempt (net 0%nat) both = inr o0 →
  attempt (net 1%nat) te = inr o1 →
  test_header_parsing host net =
    (summaries [o0; o1] ++
       (if bool_decide (lower (connection o0) = lit "close")
           && bool_decide (lower (connection o1) = lit "keep-alive")
        then warning o0 o1 else []),
     inr tt).
Proof.
  intros Htests H0 H1. unfold test_header_parsing.
  assert (socket_created (net 0%nat) = true) as Hs.
  { destruct (net 0%nat); try done. }
  rewrite probe_loop_results by (by right).
  rewrite Htests. cbn [observed reported]. rewrite H0, H1.
  injection Htests as <- <-.
  apply attempt_test_name in H0, H1. cbn [name] in H0, H1.
  unfold mbind, M_bind.
  rewrite (analyze_results_found [o0; o1] o0 o1).
  - done.
  - exists [], [o1]. split_and!; [done..|].
    intros r Hr. by apply elem_of_nil in Hr.
  - exists [o0], []. split_and!; [done..|].
    intros r ->%list_elem_of_singleton. rewrite H0. by vm_compute.
Qed.

(** A run ends normally only when both exchanges went through. *)
Lemma run_ends_normally host net out :
  test_header_parsing host net = (out, inr tt) →
  ∃ start0 data0 end0 start1 data1 end1,
    net 0%nat = Received start0 data0 end0 ∧
    net 1%nat = Received start1 data1 end1.
Proof.
  intros Hrun.
  assert (∃ both te, test_cases host = [both; te]) as (both & te & Htests)
    by (unfold test_cases; eauto).
  destruct (socket_created (net 0%nat)) eqn:Hs.
  - destruct (attempt (net 0%nat) both) as [e0|o0] eqn:Ha.
    { destruct (failed_probe_ends_run host net both te Htests Hs) as [out' Hr];
        [by eauto|]. congruence. }
    destruct (attempt (net 1%nat) te) as [e1|o1] eqn:Hb.
    { destruct (failed_probe_ends_run host net both te Htests Hs) as [out' Hr];
        [by eauto|]. congruence. }
    assert (∃ o, attempt (net 0%nat) both = inr o)
      as [(s0 & d0 & e0 & Hn0) _]%attempt_inr_iff by eauto.
    assert (∃ o, attempt (net 1%nat) te = inr o)
      as [(s1 & d1 & e1 & Hn1) _]%attempt_inr_iff by eauto.
    by exists s0, d0, e0, s1, d1, e1.
  - destruct (net 0%nat) as [msg| | | |] eqn:Hn; try done.
    unfold test_header_parsing in Hrun. rewrite Htests in Hrun.
    erewrite probe_loop_unbound in Hrun by done. done.
Qed.

(** X11.  How a run of [test_header_parsing] ends, for every host and
    every behaviour of the network: normally exactly when both test cases
    got a response; with [UnboundLocalError] exactly when the first
    [socket.socket] call raised; and with [StopIteration] in every other
    case, that is when the first socket was opened and a probe raised. *)
Theorem run_outcomes host net :
  ∃ both te out r,
    test_cases host = [both; te] ∧
    test_header_parsing host net = (out, r) ∧
    (r = inr tt ↔
       (∃ o, attempt (net 0%nat) both = inr o) ∧
       (∃ o, attempt (net 1%nat) te = inr o)) ∧
    (r = inl unbound_sock ↔ socket_created (net 0%nat) = false) ∧
    (r = inl (Exn StopIteration []) ↔
       socket_created (net 0%nat) = true ∧
       ((∃ e, attempt (net 0%nat) both = inl e) ∨
        (∃ e, attempt (net 1%nat) te = inl e))).
Proof.
  assert (∃ both te, test_cases host = [both; te]) as (both & te & Htests)
    by (unfold test_cases; eauto).
  exists both, te.
  destruct (socket_created (net 0%nat)) eqn:Hs.
  - destruct (attempt (net 0%nat) both) as [e0|o0] eqn:Ha.
    { destruct (failed_probe_ends_run host net both te Htests Hs) as [out Hr];
        [by eauto|].
      eexists _, _. split; [done|]. split; [exact Hr|].
      unfold unbound_sock. settle_outcome. }
    destruct (attempt (net 1%nat) te) as [e1|o1] eqn:Hb.
    { destruct (failed_probe_ends_run host net both te Htests Hs) as [out Hr];
        [by eauto|].
      eexists _, _. split; [done|]. split; [exact Hr|].
      unfold unbound_sock. settle_outcome. }
    eexists _, _. split; [done|].
    split; [by apply (run_with_both_entries host net both te o0 o1)|].
    unfold unbound_sock. settle_outcome.
  - destruct (net 0%nat) as [msg| | | |] eqn:Hn; try done.
    eexists _, _. split; [done|]. split.
    + unfold test_header_parsing. rewrite Htests.
      erewrite probe_loop_unbound by done. done.
    + assert (attempt (SocketFails msg) both = inl (Exn OSError msg)) as Ha
        by done.
      rewrite Ha. unfold unbound_sock. settle_outcome.
Qed.

(** X12.  A run in which both test cases get a response, for a host that
    can be encoded: each response is decoded and its headers extracted
    without an exception, the two summaries are printed from them with the
    elapsed times, the warning follows exactly when the rule holds of the
    two extracted [Connection] values, and the run ends normally. *)
Theorem answered_run host net start0 data0 end0 start1 data1 end1 :
  Forall encodable host →
  net 0%nat = Received start0 data0 end0 →
  net 1%nat = Received start1 data1 end1 →
  ∃ text0 headers0 text1 headers1 both te,
    decode_ignore data0 = inr text0 ∧ parse_headers text0 = inr headers0 ∧
    decode_ignore data1 = inr text1 ∧ parse_headers text1 = inr headers1 ∧
    both = {| test_name := lit "Both Headers";
              response_time := (end0 - start0)%float;
              connection :=
                default (lit "Not specified") (headers0 !! lit "connection");
              content_length :=
                default (lit "Not specified")
                        (headers0 !! lit "content-length") |} ∧
    te = {| test_name := lit "TE Only";
            response_time := (end1 - start1)%float;
            connection :=
              default (lit "Not specified") (headers1 !! lit "connection");
            content_length :=
              default (lit "Not specified")
                      (headers1 !! lit "content-length") |} ∧
    test_header_parsing host net =
      (summary both ++ summary te ++
         (if bool_decide (lower (connection both) = lit "close")
             && bool_decide (lower (connection te) = lit "keep-alive")
          then warning both te else []),
       inr tt).
Proof.
  intros Hhost Hn0 Hn1.
  pose proof (requests_encodable host Hhost) as Henc.
  unfold test_cases in Henc.
  apply Forall_cons in Henc as [[p0 Hp0] [[p1 Hp1] _]%Forall_cons].
  destruct (attempt_received start0 data0 end0 _ _ Hp0) as (h0 & Hh0 & Ha0).
  destruct (attempt_received start1 data1 end1 _ _ Hp1) as (h1 & Hh1 & Ha1).
  eexists _, h0, _, h1, _, _.
  split; [apply decode_ignore_inr|]. split; [exact Hh0|].
  split; [apply decode_ignore_inr|]. split; [exact Hh1|].
  split; [reflexivity|]. split; [reflexivity|].
  rewrite <- Hn0 in Ha0. rewrite <- Hn1 in Ha1.
  erewrite run_with_both_entries; [|reflexivity|exact Ha0|exact Ha1].
  unfold summaries. cbn [map concat name]. by rewrite app_nil_r, <- app_assoc.
Qed.
End MoreRuns.

(** ** Further properties: [main] *)

(** X13.  The text [main] hands to [urlparse] always holds ["://"]: an
    argument that holds it anywhere is passed on unchanged, any other
    argument gets ["http://"] in front; nothing of the argument is ever
    removed, and a text so prepared is left as it is when prepared
    again. *)
Theorem target_url_scheme url :
  contains SCHEME_SEP (target_url url) = true ∧
  (∀ before after,
     url = before ++ SCHEME_SEP ++ after → target_url url = url) ∧
  ((∀ before after, url ≠ before ++ SCHEME_SEP ++ after) →
   target_url url = lit "http://" ++ url) ∧
  target_url (target_url url) = target_url url.
Proof.
  assert (contains SCHEME_SEP (target_url url) = true) as Hc.
  { unfold target_url. destruct (contains SCHEME_SEP url) eqn:Hu; [done|].
    apply contains_spec. by exists (lit "http"), url. }
  split_and!; [done| | |].
  - intros before after ->. unfold target_url.
    by rewrite (proj2 (contains_spec _ _)) by eauto.
  - intros Hno. unfold target_url.
    destruct (contains SCHEME_SEP url) eqn:Hu; [|done].
    apply contains_spec in Hu as (before & after & ->). by destruct (Hno before after).
  - unfold target_url at 1. by rewrite Hc.
Qed.

(** X14.  [main] ends normally only when [urlparse] and the reading of
    the port raised nothing and both test cases got a response; the first
    line printed is then the line that names the host and the port, the
    rest is the report of [test_header_parsing], and the port named and
    probed is never [0]: [80] stands in for a missing port and for port
    [0].  When [urlparse] or the reading of the port raises, nothing is
    printed at all. *)
Theorem main_outcomes `{UnicodeData} urlparse network url :
  (∀ out,
     main urlparse network url = (out, inr tt) →
     ∃ parsed p rest start0 data0 end0 start1 data1 end1,
       urlparse (target_url url) = inr parsed ∧
       port parsed = inr p ∧
       port_or_80 p ≠ 0 ∧
       (p = None ∨ p = Some 0 → port_or_80 p = 80) ∧
       out = (lit "Testing " ++ format_optional (hostname parsed) ++ lit ":"
                ++ str_of_N (port_or_80 p)
                ++ lit " for header parsing behavior...") :: rest ∧
       test_header_parsing (format_optional (hostname parsed))
                           (network (hostname parsed) (port_or_80 p))
         = (rest, inr tt) ∧
       network (hostname parsed) (port_or_80 p) 0%nat
         = Received start0 data0 end0 ∧
       network (hostname parsed) (port_or_80 p) 1%nat
         = Received start1 data1 end1) ∧
  (∀ e, urlparse (target_url url) = inl e →
        main urlparse network url = ([], inl e)) ∧
  (∀ parsed e,
     urlparse (target_url url) = inr parsed → port parsed = inl e →
     main urlparse network url = ([], inl e)).
Proof.
  split_and!.
  - intros out. unfold main.
    destruct (urlparse (target_url url)) as [e|parsed] eqn:Hu; [done|].
    cbn -[lit test_header_parsing port_or_80].
    destruct (port parsed) as [e|p] eqn:Hp; [done|].
    cbn -[lit test_header_parsing port_or_80].
    destruct (test_header_parsing _ _) as [rest r] eqn:Hrun.
    intros [= <- ->].
    destruct (run_ends_normally _ _ _ Hrun)
      as (s0 & d0 & e0 & s1 & d1 & e1 & Hn0 & Hn1).
    exists parsed, p, rest, s0, d0, e0, s1, d1, e1.
    split_and!; try done.
    + unfold port_or_80. destruct p as [n|]; [|done].
      destruct (n =? 0) eqn:Hz; [done|]. by apply N.eqb_neq.
    + by intros [->| ->].
  - intros e Hu. unfold main. by rewrite Hu.
  - intros parsed e Hu Hp. unfold main. rewrite Hu. cbn. by rewrite Hp.
Qed.

(** ** The further properties at concrete inputs *)

(** X1, at a text with code points of two, three and four bytes. *)
Lemma encoded_text_decodes_witness :
  decode_ignore (concat (map utf8_char multibyte_text)) = inr multibyte_text ∧
  decode Strict (concat (map utf8_char multibyte_text)) = Some multibyte_text ∧
  decode Replace (concat (map utf8_char multibyte_text)) = Some multibyte_text.
Proof.
  apply (encoded_text_decodes multibyte_text). by vm_compute.
Defined.

(** X2, at the bytes [b"a\xffb"]. *)
Lemma decoded_text_encodable_witness :
  (∃ again, encode (lit "ab") = inr again) ∧
  (length (lit "ab") ≤ length stray_response)%nat.
Proof.
  apply (decoded_text_encodable stray_response (lit "ab")). done.
Defined.

(** X3, at the two bytes that encode ["é"]. *)
Lemma well_formed_bytes_round_trip_witness :
  encode [233] = inr ["195"; "169"]%byte ∧
  decode_ignore ["195"; "169"]%byte = inr [233].
Proof.
  apply (well_formed_bytes_round_trip ["195"; "169"]%byte [233]). done.
Defined.

(** X4, at three lines, the second of them empty. *)
Lemma split_join_lines_witness :
  split CRLF (join CRLF [lit "a"; []; lit "b"]) = [lit "a"; []; lit "b"].
Proof.
  apply (split_join_lines [lit "a"; []; lit "b"]); [done|].
  by repeat constructor.
Defined.

(** X5, at a response whose lines end in a bare LF: the one entry has the
    status line in its name and the rest of the response as its value. *)
Lemma bare_response_single_line_witness :
  ∃ headers,
    @parse_headers ascii_only lf_response = inr headers ∧
    (contains COLON_SP lf_response = false → headers = ∅) ∧
    (∀ key value,
       first_at COLON_SP lf_response key value →
       headers = {[ @lower ascii_only key := value ]}).
Proof.
  apply (@bare_response_single_line ascii_only lf_response). done.
Defined.

(** X6, at the host [example.com]. *)
Lemma request_lines_witness :
  (λ test, split CRLF (request test)) <$> test_cases (lit "example.com") =
    [ [ lit "POST / HTTP/1.1"; lit "Host: " ++ lit "example.com";
        lit "Content-Length: 5"; lit "Transfer-Encoding: chunked";
        lit "Connection: keep-alive"; []; lit "0"; []; [] ];
      [ lit "POST / HTTP/1.1"; lit "Host: " ++ lit "example.com";
        lit "Transfer-Encoding: chunked";
        lit "Connection: keep-alive"; []; lit "0"; []; [] ] ].
Proof.
  apply (request_lines (lit "example.com")). done.
Defined.

(** X7, at the lines [Connection: close] and [CONNECTION: keep-alive]. *)
Lemma header_names_ignore_case_witness :
  ∃ headers',
    @parse_lines ascii_only ∅
      [lit "Connection: close"; lit "CONNECTION: keep-alive"] = inr headers' ∧
    headers' = <[map ascii_lower (lit "CONNECTION") := lit "keep-alive"]> ∅ ∧
    headers' !! map ascii_lower (lit "Connection") = Some (lit "keep-alive").
Proof.
  apply (@header_names_ignore_case ascii_only ∅
           (lit "Connection: close") (lit "Connection") (lit "close")
           (lit "CONNECTION: keep-alive") (lit "CONNECTION") (lit "keep-alive")).
  - by apply cut_first_at.
  - by apply cut_first_at.
  - vm_compute. by repeat constructor.
  - vm_compute. by repeat constructor.
  - done.
Defined.

(** X10, at the server whose second answer does not arrive. *)
Lemma probe_loop_accounting_witness :
  ∃ out results,
    @probe_loop ascii_only timeout_server 0 (test_cases (lit "example.com"))
      false [] = (out, inr results) ∧
    (length results + length out
     = length (test_cases (lit "example.com")))%nat ∧
    map test_name results `sublist_of` map name (test_cases (lit "example.com")).
Proof.
  apply (@probe_loop_accounting ascii_only timeout_server
           (test_cases (lit "example.com"))).
  done.
Defined.

(** X12, at the server that closes the connection on the first request. *)
Lemma answered_run_witness :
  ∃ text0 headers0 text1 headers1 both te,
    decode_ignore
      (ascii_bytes (lit "HTTP/1.1 400 Bad Request" ++ CRLF
                      ++ lit "Connection: close" ++ CRLF ++ CRLF)) = inr text0 ∧
    @parse_headers ascii_only text0 = inr headers0 ∧
    decode_ignore
      (ascii_bytes (lit "HTTP/1.1 200 OK" ++ CRLF
                      ++ lit "Connection: keep-alive" ++ CRLF
                      ++ lit "Content-Length: 0" ++ CRLF ++ CRLF)) = inr text1 ∧
    @parse_headers ascii_only text1 = inr headers1 ∧
    both = {| test_name := lit "Both Headers";
              response_time := (10.5 - 10)%float;
              connection :=
                default (lit "Not specified") (headers0 !! lit "connection");
              content_length :=
                default (lit "Not specified")
                        (headers0 !! lit "content-length") |} ∧
    te = {| test_name := lit "TE Only";
            response_time := (12.25 - 12)%float;
            connection :=
              default (lit "Not specified") (headers1 !! lit "connection");
            content_length :=
              default (lit "Not specified")
                      (headers1 !! lit "content-length") |} ∧
    @test_header_parsing ascii_only (lit "example.com") inconsistent_server =
      (summary both ++ summary te ++
         (if bool_decide (@lower ascii_only (connection both) = lit "close")
             && bool_decide
                  (@lower ascii_only (connection te) = lit "keep-alive")
          then warning both te else []),
       inr tt).
Proof.
  apply (@answered_run ascii_only (lit "example.com") inconsistent_server).
  - apply ascii_text_encodable. vm_compute. by repeat constructor.
  - done.
  - done.
Defined.

(** X14, at a [urlparse] that finds the host [example.com] and no port,
    and the server that closes the connection on the first request. *)
Lemma main_outcomes_witness :
  ∃ parsed p rest start0 data0 end0 start1 data1 end1,
    example_urlparse (target_url (lit "example.com")) = inr parsed ∧
    port parsed = inr p ∧
    port_or_80 p ≠ 0 ∧
    (p = None ∨ p = Some 0 → port_or_80 p = 80) ∧
    fst (@main ascii_only example_urlparse example_network (lit "example.com"))
      = (lit "Testing " ++ format_optional (hostname parsed) ++ lit ":"
           ++ str_of_N (port_or_80 p)
           ++ lit " for header parsing behavior...") :: rest ∧
    @test_header_parsing ascii_only (format_optional (hostname parsed))
                         (example_network (hostname parsed) (port_or_80 p))
      = (rest, inr tt) ∧
    example_network (hostname parsed) (port_or_80 p) 0%nat
      = Received start0 data0 end0 ∧
    example_network (hostname parsed) (port_or_80 p) 1%nat
      = Received start1 data1 end1.
Proof.
  apply (proj1 (@main_outcomes ascii_only example_urlparse example_network
                  (lit "example.com"))).
  by vm_compute.
Defined.
